(** * A first-fit heap allocator over [sbrk]: model and verification

    Shallow embedding of [src/allocator.c] (LP64: [size_t], [uintptr_t] and
    pointers are 64-bit words, [int] is 32 bits, [sizeof(Block)] is 32
    because of the [aligned(16)] attribute).

    The C program keeps its block headers inside the arena it manages, so
    the model keeps them in a memory as well: a finite map from addresses
    to values, one cell per header field, in which [mfree] can look for a
    header at any address it is given.  [size_t] arithmetic is written
    with its wrap-around modulo [2^64].  The loops of the program walk a
    linked list stored in that memory; they are modelled with fuel, and
    the theorems state how much fuel makes them return.  [sbrk] belongs to
    the C library: the state carries the program break and the range the
    operating system lets it move in.

    The file has three parts: the program, the chains of blocks that
    describe well-formed heaps, and the properties. *)

From Stdlib Require Import ZArith Lia List Bool.
From stdpp Require Import base gmap list.

Local Open Scope Z_scope.

(** ** Machine integers *)

Definition SIZE_BITS : Z := 64.
Definition SIZE_MOD : Z := 2 ^ SIZE_BITS.
Definition SIZE_MAX : Z := SIZE_MOD - 1.
Definition INTPTR_MAX : Z := 2 ^ 63 - 1.

(** Reduction of a mathematical integer to a [size_t]. *)
Definition wrap (z : Z) : Z := z mod SIZE_MOD.

(** Conversion of a [size_t] to the [intptr_t] parameter of [sbrk]. *)
Definition to_intptr (z : Z) : Z :=
  if z <=? INTPTR_MAX then z else z - SIZE_MOD.

Definition NULL : Z := 0.

(** [(void * )-1], the value [sbrk] returns when it fails. *)
Definition SBRK_FAILED : Z := SIZE_MAX.

(** ** Constants of the allocator *)

Definition ALIGNMENT : Z := 16.

Definition sizeof_Block : Z := 32.

Definition ALIGNED_METADATA_SIZE : Z :=
  Z.land (sizeof_Block + (ALIGNMENT - 1)) (Z.lnot (ALIGNMENT - 1)).

Definition MIN_BLOCK_SIZE : Z := ALIGNED_METADATA_SIZE + ALIGNMENT.

(** ** Memory and the fields of a [Block] header

    A cell holds one field and is named by the address of the field; a
    cell never written reads as 0, as memory fresh from the operating
    system does.  The fields of [struct Block] lie at offsets 0 ([size]),
    8 ([free]) and 16 ([next]). *)

Definition load (m : gmap Z Z) (a : Z) : Z := default 0 (m !! a).
Definition store (a v : Z) (m : gmap Z Z) : gmap Z Z := <[a := v]> m.

Definition OFF_SIZE : Z := 0.
Definition OFF_FREE : Z := 8.
Definition OFF_NEXT : Z := 16.

Definition get_size (m : gmap Z Z) (b : Z) : Z := load m (b + OFF_SIZE).
Definition get_free (m : gmap Z Z) (b : Z) : Z := load m (b + OFF_FREE).
Definition get_next (m : gmap Z Z) (b : Z) : Z := load m (b + OFF_NEXT).

Definition set_size (b v : Z) (m : gmap Z Z) : gmap Z Z := store (b + OFF_SIZE) v m.
Definition set_free (b v : Z) (m : gmap Z Z) : gmap Z Z := store (b + OFF_FREE) v m.
Definition set_next (b v : Z) (m : gmap Z Z) : gmap Z Z := store (b + OFF_NEXT) v m.

(** ** Program state

    [mem], [head] and [heap_start] are the program's own; [brk], [brk_lo]
    and [brk_hi] are the operating system's side of [sbrk] (the current
    program break and the range it may move in); [sbrk_calls] records the
    argument of every call of [sbrk], most recent first. *)

Record heap : Type := mkHeap {
  mem : gmap Z Z;
  head : Z;
  heap_start : Z;
  brk : Z;
  brk_lo : Z;
  brk_hi : Z;
  sbrk_calls : list Z
}.

Definition with_mem (m : gmap Z Z) (st : heap) : heap :=
  mkHeap m (head st) (heap_start st) (brk st) (brk_lo st) (brk_hi st) (sbrk_calls st).

Definition with_head (h : Z) (st : heap) : heap :=
  mkHeap (mem st) h (heap_start st) (brk st) (brk_lo st) (brk_hi st) (sbrk_calls st).

Definition with_heap_start (p : Z) (st : heap) : heap :=
  mkHeap (mem st) (head st) p (brk st) (brk_lo st) (brk_hi st) (sbrk_calls st).

(** The growth primitive.  [sbrk 0] is a query and returns the break.
    Otherwise it returns the previous break and moves the break by
    [increment] when the new break stays within the allowed range, and
    returns [(void * )-1] without moving it when it does not. *)
Definition sbrk (increment : Z) (st : heap) : Z * heap :=
  let new_brk := brk st + increment in
  let calls := increment :: sbrk_calls st in
  if (increment =? 0) || ((brk_lo st <=? new_brk) && (new_brk <=? brk_hi st)) then
    (brk st,
     mkHeap (mem st) (head st) (heap_start st) new_brk (brk_lo st) (brk_hi st) calls)
  else
    (SBRK_FAILED,
     mkHeap (mem st) (head st) (heap_start st) (brk st) (brk_lo st) (brk_hi st) calls).

(** ** The allocator *)

Definition align (size : Z) : Z :=
  Z.land (wrap (size + ALIGNMENT - 1)) (Z.lnot (ALIGNMENT - 1)).

Definition is_aligned (ptr : Z) : bool := ptr mod ALIGNMENT =? 0.

Definition split (block size : Z) (m : gmap Z Z) : Z * gmap Z Z :=
  if get_size m block <? wrap (size + MIN_BLOCK_SIZE) then
    (block, set_free block 0 m)
  else
    let leftover_size := wrap (get_size m block - size - ALIGNED_METADATA_SIZE) in
    let new_block := block + ALIGNED_METADATA_SIZE + size in
    let m := set_size new_block leftover_size m in
    let m := set_free new_block 1 m in
    let m := set_next new_block (get_next m block) m in
    let m := set_size block size m in
    let m := set_free block 0 m in
    let m := set_next block new_block m in
    (block, m).

(** Outcome of the search loop of [mallocate]: it leaves either through the
    [return] on a fitting block or at the end of the list, where [last] is
    the final block. *)
Inductive scan : Type :=
  | Fit (curr : Z)
  | NoFit (last : Z).

Fixpoint scan_chain (fuel : nat) (m : gmap Z Z) (aligned_size curr last : Z)
  : option scan :=
  match fuel with
  | O => None
  | S fuel' =>
      if curr =? NULL then Some (NoFit last)
      else if negb (get_free m curr =? 0) && (aligned_size <=? get_size m curr)
      then Some (Fit curr)
      else scan_chain fuel' m aligned_size (get_next m curr) curr
  end.

(** The tail shared by both growth paths of [mallocate]: write the header
    of a fresh block at [allocated]. *)
Definition init_block (allocated aligned_size : Z) (m : gmap Z Z) : gmap Z Z :=
  let m := set_size allocated aligned_size m in
  let m := set_free allocated 0 m in
  set_next allocated NULL m.

(** The first statement of [mallocate]: remember where the arena starts. *)
Definition init_heap_start (st : heap) : heap :=
  if heap_start st =? NULL then
    let '(p, st) := sbrk 0 st in with_heap_start p st
  else st.

Definition mallocate (fuel : nat) (size : Z) (st : heap) : option (Z * heap) :=
  let st := init_heap_start st in
  let aligned_size := align size in
  let total_size := wrap (ALIGNED_METADATA_SIZE + aligned_size) in
  if head st =? NULL then
    let '(allocated, st) := sbrk (to_intptr total_size) st in
    if allocated =? SBRK_FAILED then Some (NULL, st)
    else
      let st := with_mem (init_block allocated aligned_size (mem st)) st in
      let st := with_head allocated st in
      Some (allocated + ALIGNED_METADATA_SIZE, st)
  else
    match scan_chain fuel (mem st) aligned_size (head st) NULL with
    | None => None
    | Some (Fit curr) =>
        let '(curr, m) := split curr aligned_size (mem st) in
        Some (curr + ALIGNED_METADATA_SIZE, with_mem m st)
    | Some (NoFit last) =>
        let '(allocated, st) := sbrk (to_intptr total_size) st in
        if allocated =? SBRK_FAILED then Some (NULL, st)
        else
          let m := init_block allocated aligned_size (mem st) in
          let m := set_next last allocated m in
          Some (allocated + ALIGNED_METADATA_SIZE, with_mem m st)
    end.

(** First loop of [coalesce]: absorb the free blocks that follow [block]. *)
Fixpoint absorb_next (fuel : nat) (block : Z) (m : gmap Z Z) : option (gmap Z Z) :=
  match fuel with
  | O => None
  | S fuel' =>
      if negb (get_next m block =? NULL)
         && negb (get_free m (get_next m block) =? 0)
      then
        let m := set_size block
                   (wrap (get_size m block
                          + wrap (ALIGNED_METADATA_SIZE + get_size m (get_next m block)))) m in
        let m := set_next block (get_next m (get_next m block)) m in
        absorb_next fuel' block m
      else Some m
  end.

(** Second loop of [coalesce]: walk from the head to [block]; the result is
    the final value of [prev]. *)
Fixpoint find_prev (fuel : nat) (m : gmap Z Z) (block curr prev : Z) : option Z :=
  match fuel with
  | O => None
  | S fuel' =>
      if negb (curr =? NULL) && negb (curr =? block)
      then find_prev fuel' m block (get_next m curr) curr
      else Some prev
  end.

Definition coalesce (fuel : nat) (block : Z) (st : heap) : option (Z * heap) :=
  match absorb_next fuel block (mem st) with
  | None => None
  | Some m =>
      match find_prev fuel m block (head st) NULL with
      | None => None
      | Some prev =>
          if negb (prev =? NULL) && negb (get_free m prev =? 0) then
            let m := set_size prev
                       (wrap (get_size m prev
                              + wrap (ALIGNED_METADATA_SIZE + get_size m block))) m in
            let m := set_next prev (get_next m block) m in
            Some (prev, with_mem m st)
          else Some (block, with_mem m st)
      end
  end.

Definition mfree (fuel : nat) (ptr : Z) (st : heap) : option heap :=
  if ptr =? NULL then Some st
  else
    let '(heap_end, st) := sbrk 0 st in
    if (ptr <? heap_start st) || (heap_end <=? ptr) then Some st
    else if negb (is_aligned ptr) then Some st
    else
      let metadata := ptr - ALIGNED_METADATA_SIZE in
      if negb (get_free (mem st) metadata =? 0) then Some st
      else
        let st := with_mem (set_free metadata 1 (mem st)) st in
        match coalesce fuel metadata st with
        | None => None
        | Some (_, st) => Some st
        end.

(** [print_blocks] without the printing: the rows it prints, in chain
    order, one per block: address, size, whether free, next. *)
Fixpoint print_blocks_from (fuel : nat) (m : gmap Z Z) (curr : Z)
  : option (list (Z * Z * bool * Z)) :=
  match fuel with
  | O => None
  | S fuel' =>
      if curr =? NULL then Some []
      else
        match print_blocks_from fuel' m (get_next m curr) with
        | None => None
        | Some rows =>
            Some ((curr, get_size m curr, negb (get_free m curr =? 0),
                   get_next m curr) :: rows)
        end
  end.

Definition print_blocks (fuel : nat) (st : heap) : option (list (Z * Z * bool * Z)) :=
  print_blocks_from fuel (mem st) (head st).

(** ** The chain of blocks a memory holds

    A [Block] value is the logical content of one header: where it is, the
    usable size it records and whether it is marked free.  The [next]
    field is not part of it: it is determined by the list the block is
    in. *)

Record Block : Type := mkBlock {
  b_addr : Z;
  b_size : Z;
  b_free : bool
}.

Definition footprint (b : Block) : Z := ALIGNED_METADATA_SIZE + b_size b.

(** The pointer [mallocate] hands out for a block. *)
Definition usable (b : Block) : Z := b_addr b + ALIGNED_METADATA_SIZE.

Definition first_addr (l : list Block) (tail : Z) : Z :=
  match l with
  | [] => tail
  | b :: _ => b_addr b
  end.

Fixpoint last_addr (l : list Block) (d : Z) : Z :=
  match l with
  | [] => d
  | b :: l' => last_addr l' (b_addr b)
  end.

Fixpoint chain_end (a : Z) (l : list Block) : Z :=
  match l with
  | [] => a
  | b :: l' => chain_end (a + footprint b) l'
  end.

(** The blocks of [l] tile the addresses from [a] on, in order, without
    gaps; sizes are multiples of the alignment unit. *)
Fixpoint layout (a : Z) (l : list Block) : Prop :=
  match l with
  | [] => True
  | b :: l' =>
      b_addr b = a /\ 0 <= b_size b /\ b_size b mod ALIGNMENT = 0
      /\ layout (a + footprint b) l'
  end.

(** The headers of the blocks of [l] are in memory [m], each linked to the
    next, the last one to [tail]. *)
Fixpoint repr (m : gmap Z Z) (l : list Block) (tail : Z) : Prop :=
  match l with
  | [] => True
  | b :: l' =>
      get_size m (b_addr b) = b_size b
      /\ get_free m (b_addr b) = Z.b2z (b_free b)
      /\ get_next m (b_addr b) = first_addr l' tail
      /\ repr m l' tail
  end.

(** Start of the arena: [heap_start] once it is set, the break before. *)
Definition arena_base (st : heap) : Z :=
  if heap_start st =? NULL then brk st else heap_start st.

(** State [st] holds exactly the chain [l]. *)
Record heap_inv (st : heap) (l : list Block) : Prop := mkInv {
  inv_start : heap_start st = NULL -> l = [];
  inv_base : 0 < arena_base st;
  inv_head : head st = first_addr l NULL;
  inv_layout : layout (arena_base st) l;
  inv_end : chain_end (arena_base st) l = brk st;
  inv_lo : brk_lo st <= brk st;
  inv_brk : brk st <= brk_hi st;
  inv_hi : brk_hi st <= INTPTR_MAX;
  inv_repr : repr (mem st) l NULL
}.

(** A block fits a request of [aligned_size] bytes. *)
Definition fits (aligned_size : Z) (b : Block) : bool :=
  b_free b && (aligned_size <=? b_size b).

(** What [split] makes of block [b] for a request of [s] bytes. *)
Definition split_blocks (b : Block) (s : Z) : list Block :=
  if b_size b <? s + MIN_BLOCK_SIZE then
    [mkBlock (b_addr b) (b_size b) false]
  else
    [mkBlock (b_addr b) s false;
     mkBlock (b_addr b + ALIGNED_METADATA_SIZE + s)
             (b_size b - s - ALIGNED_METADATA_SIZE) true].

(** Usable size of the block that absorbed the blocks of [fs] behind it. *)
Definition absorbed (s : Z) (fs : list Block) : Z :=
  fold_left (fun acc f => acc + footprint f) fs s.

Definition first_free (l : list Block) : bool :=
  match l with
  | [] => false
  | c :: _ => b_free c
  end.

Fixpoint last_free (l : list Block) : bool :=
  match l with
  | [] => false
  | q :: l' =>
      match l' with
      | [] => b_free q
      | _ :: _ => last_free l'
      end
  end.

(** No two neighbours in the chain are both free. *)
Fixpoint no_adjacent_free (l : list Block) : Prop :=
  match l with
  | [] => True
  | b :: l' => b_free b && first_free l' = false /\ no_adjacent_free l'
  end.

(** What [coalesce] makes of block [b], freed, with the run [fs] of free
    blocks behind it and its predecessor [pred] in the chain (if any). *)
Definition coalesced (pred : option Block) (b : Block) (fs : list Block)
  : list Block :=
  let merged := mkBlock (b_addr b) (absorbed (b_size b) fs) true in
  match pred with
  | Some q =>
      if b_free q
      then [mkBlock (b_addr q) (b_size q + footprint merged) true]
      else [q; merged]
  | None => [merged]
  end.

(** The address of the block [coalesce] returns. *)
Definition survivor (pred : option Block) (b : Block) : Z :=
  match pred with
  | Some q => if b_free q then b_addr q else b_addr b
  | None => b_addr b
  end.

(** The free block at [a] has no free neighbour in chain [l]: the run of
    free blocks around it is that one block. *)
Definition free_run_of_one (l : list Block) (a : Z) : Prop :=
  exists before s after,
    l = before ++ s :: after /\ b_addr s = a /\ b_free s = true
    /\ last_free before = false /\ first_free after = false.

(** Every block has at least one alignment unit of usable space. *)
Definition min_sized (l : list Block) : Prop :=
  Forall (fun b => ALIGNMENT <= b_size b) l.

(** A request whose total size, header plus aligned size, is a value of
    [intptr_t], the type of the parameter of [sbrk]. *)
Definition representable (size : Z) : Prop :=
  ALIGNED_METADATA_SIZE + align size <= INTPTR_MAX.

(** The block [mallocate] appends when it grows the arena. *)
Definition grown (st : heap) (size : Z) : Block :=
  mkBlock (brk st) (align size) false.

(** The state in which [mfree] calls [coalesce]: the query of the break is
    logged and the block at [block] is marked free. *)
Definition marked (block : Z) (st : heap) : heap :=
  with_mem (set_free block 1 (mem st)) (snd (sbrk 0 st)).

(** The pointers [mfree] does nothing for. *)
Definition ignored (st : heap) (ptr : Z) : Prop :=
  ptr = NULL
  \/ ptr < heap_start st
  \/ brk st <= ptr
  \/ is_aligned ptr = false
  \/ get_free (mem st) (ptr - ALIGNED_METADATA_SIZE) <> 0.

(** The chain is untouched: same memory, same head, same arena. *)
Definition same_chain (st st' : heap) : Prop :=
  mem st' = mem st /\ head st' = head st
  /\ heap_start st' = heap_start st /\ brk st' = brk st
  /\ brk_lo st' = brk_lo st /\ brk_hi st' = brk_hi st.

(** Address [x] lies in the usable region of block [c], the bytes the
    caller of [mallocate] owns. *)
Definition in_usable (c : Block) (x : Z) : Prop :=
  usable c <= x < usable c + b_size c.

(** A process that has not called the allocator yet: empty memory, no
    block, and the break at [b] with room up to [hi]. *)
Definition fresh (b hi : Z) : heap := mkHeap ∅ NULL NULL b b hi [].

(** The rows [print_blocks] shows for a chain. *)
Fixpoint rows_of (l : list Block) : list (Z * Z * bool * Z) :=
  match l with
  | [] => []
  | b :: l' => (b_addr b, b_size b, b_free b, first_addr l' NULL) :: rows_of l'
  end.

(** The states a process reaches when it only calls [mallocate] with
    admissible sizes and [mfree] with pointers that [mfree] ignores or
    that designate a block of the chain. *)
Inductive reachable (admissible : Z -> Prop) : heap -> Prop :=
  | reach_fresh b hi :
      0 < b -> b <= hi -> hi <= INTPTR_MAX ->
      reachable admissible (fresh b hi)
  | reach_mallocate st fuel size p st' :
      reachable admissible st -> admissible size ->
      mallocate fuel size st = Some (p, st') ->
      reachable admissible st'
  | reach_mfree st fuel ptr st' :
      reachable admissible st ->
      (forall l, heap_inv st l ->
                 ignored st ptr \/ exists b, In b l /\ ptr = usable b) ->
      mfree fuel ptr st = Some st' ->
      reachable admissible st'.

(** ** Heaps to run the allocator on

    Every laid-out chain is the content of some heap: [write_chain] writes
    its headers into a memory.  This gives concrete well-formed heaps. *)

Fixpoint write_chain (l : list Block) (m : gmap Z Z) : gmap Z Z :=
  match l with
  | [] => m
  | b :: l' =>
      set_next (b_addr b) (first_addr l' NULL)
        (set_free (b_addr b) (Z.b2z (b_free b))
           (set_size (b_addr b) (b_size b) (write_chain l' m)))
  end.

Definition heap_of (base hi : Z) (l : list Block) : heap :=
  mkHeap (write_chain l ∅) (first_addr l NULL) base (chain_end base l) base hi [].

(** A heap with four blocks: 64 bytes in use, 16 free, 32 in use, 112 free. *)
Definition demo_chain : list Block :=
  [mkBlock 4096 64 false; mkBlock 4192 16 true;
   mkBlock 4240 32 false; mkBlock 4304 112 true].

Definition demo : heap := heap_of 4096 8192 demo_chain.

(** A heap with three free blocks behind a block in use, after a free
    block. *)
Definition run_chain : list Block :=
  [mkBlock 4096 16 false; mkBlock 4144 32 true; mkBlock 4208 48 false;
   mkBlock 4288 16 true; mkBlock 4336 32 true; mkBlock 4400 64 false].

Definition run_heap : heap := heap_of 4096 8192 run_chain.

(** The heap of a process after its first call, [mallocate 64]. *)
Definition first_block : heap :=
  match mallocate 1 64 (fresh 4096 8192) with
  | Some (_, st) => st
  | None => fresh 4096 8192
  end.

(** Bytes a chain takes, headers included. *)
Definition total_bytes (l : list Block) : Z :=
  fold_right Z.add 0 (map footprint l).

(** The heap [run_heap] after the release of the block at 4208. *)
Definition run_freed : heap :=
  match mfree 7 4240 run_heap with
  | Some st => st
  | None => run_heap
  end.

(** ** Arithmetic of the constants *)

Lemma metadata_size : ALIGNED_METADATA_SIZE = 32.
Proof. reflexivity. Qed.

Lemma wrap_small z : 0 <= z <= SIZE_MAX -> wrap z = z.
Proof.
  intros H. unfold wrap. apply Z.mod_small.
  unfold SIZE_MAX in H. lia.
Qed.

Lemma wrap_range z : 0 <= wrap z <= SIZE_MAX.
Proof.
  unfold wrap, SIZE_MAX.
  assert (0 <= z mod SIZE_MOD < SIZE_MOD) by (apply Z.mod_pos_bound; reflexivity).
  lia.
Qed.

(** Clearing the four low bits rounds down to a multiple of 16. *)
Lemma land_lnot_15 x : Z.land x (Z.lnot (ALIGNMENT - 1)) = 16 * (x / 16).
Proof.
  change (ALIGNMENT - 1) with (Z.ones 4).
  rewrite <- Z.ldiff_land, Z.ldiff_ones_r by lia.
  rewrite Z.shiftl_mul_pow2, Z.shiftr_div_pow2 by lia.
  change (2 ^ 4) with 16. lia.
Qed.

Lemma align_spec size : align size = 16 * (wrap (size + 15) / 16).
Proof.
  unfold align. rewrite land_lnot_15.
  replace (size + ALIGNMENT - 1) with (size + 15) by (unfold ALIGNMENT; lia).
  reflexivity.
Qed.

Lemma align_mod size : align size mod ALIGNMENT = 0.
Proof.
  rewrite align_spec. unfold ALIGNMENT.
  rewrite Z.mul_comm. apply Z.mod_mul. lia.
Qed.

Lemma align_range size : 0 <= align size <= SIZE_MAX - 15.
Proof.
  rewrite align_spec.
  pose proof (wrap_range (size + 15)) as Hw.
  unfold SIZE_MAX, SIZE_MOD, SIZE_BITS in *.
  change (2 ^ 64) with 18446744073709551616 in *.
  pose proof (Z.div_mod (wrap (size + 15)) 16 ltac:(lia)) as Hd.
  pose proof (Z.mod_pos_bound (wrap (size + 15)) 16 ltac:(lia)) as Hm.
  lia.
Qed.

(** Without overflow, [align] rounds up: the result is the least multiple
    of 16 that is at least [size]. *)
Lemma align_bounds size :
  0 <= size -> size + 15 <= SIZE_MAX -> size <= align size <= size + 15.
Proof.
  intros H0 H1. rewrite align_spec, wrap_small by lia.
  pose proof (Z.div_mod (size + 15) 16 ltac:(lia)) as Hd.
  pose proof (Z.mod_pos_bound (size + 15) 16 ltac:(lia)) as Hm.
  lia.
Qed.

Lemma representable_total size :
  representable size ->
  to_intptr (wrap (ALIGNED_METADATA_SIZE + align size))
  = ALIGNED_METADATA_SIZE + align size
  /\ 0 < ALIGNED_METADATA_SIZE + align size <= INTPTR_MAX.
Proof.
  unfold representable. intros H1. rewrite metadata_size in *.
  pose proof (align_range size) as Ha.
  unfold INTPTR_MAX in H1.
  rewrite wrap_small by (unfold SIZE_MAX, SIZE_MOD, SIZE_BITS; lia).
  unfold to_intptr, INTPTR_MAX.
  destruct (Z.leb_spec (32 + align size) (2 ^ 63 - 1)); lia.
Qed.

Lemma b2z_test (f : bool) : negb (Z.b2z f =? 0) = f.
Proof. destruct f; reflexivity. Qed.

(** ** Memory lemmas *)

Lemma load_store_eq a v m : load (store a v m) a = v.
Proof. unfold load, store. rewrite lookup_insert_eq. reflexivity. Qed.

Lemma load_store_ne a a' v m : a <> a' -> load (store a v m) a' = load m a'.
Proof. intros H. unfold load, store. rewrite lookup_insert_ne by exact H. reflexivity. Qed.

Ltac fields :=
  unfold init_block in *;
  unfold get_size, get_free, get_next, set_size, set_free, set_next in *;
  unfold OFF_SIZE, OFF_FREE, OFF_NEXT in *.

Ltac mem_simpl :=
  repeat first
    [ rewrite load_store_eq
    | rewrite load_store_ne by lia ].

(** ** Chains: append, bounds and frame *)

Lemma first_addr_app l1 l2 t :
  first_addr (l1 ++ l2) t = first_addr l1 (first_addr l2 t).
Proof. destruct l1; reflexivity. Qed.

Lemma last_addr_app l1 l2 d :
  last_addr (l1 ++ l2) d = last_addr l2 (last_addr l1 d).
Proof. revert d. induction l1 as [|b l1 IH]; intros d; simpl; auto. Qed.

Lemma chain_end_app a l1 l2 :
  chain_end a (l1 ++ l2) = chain_end (chain_end a l1) l2.
Proof. revert a. induction l1 as [|b l1 IH]; intros a; simpl; auto. Qed.

Lemma layout_app a l1 l2 :
  layout a (l1 ++ l2) <-> layout a l1 /\ layout (chain_end a l1) l2.
Proof.
  revert a. induction l1 as [|b l1 IH]; intros a; simpl.
  - tauto.
  - rewrite IH. tauto.
Qed.

Lemma repr_app m l1 l2 t :
  repr m (l1 ++ l2) t <-> repr m l1 (first_addr l2 t) /\ repr m l2 t.
Proof.
  induction l1 as [|b l1 IH]; simpl.
  - tauto.
  - rewrite IH, first_addr_app. tauto.
Qed.

Lemma layout_le a l : layout a l -> a <= chain_end a l.
Proof.
  revert a. induction l as [|b l IH]; intros a H; simpl in *.
  - lia.
  - destruct H as (_ & Hs & _ & Hl). apply IH in Hl.
    unfold footprint in *. rewrite metadata_size in *. lia.
Qed.

(** A chain only depends on the cells its headers occupy. *)
Lemma repr_frame a l m m' t :
  layout a l ->
  (forall x, a <= x < chain_end a l -> load m' x = load m x) ->
  repr m l t -> repr m' l t.
Proof.
  revert a. induction l as [|b l IH]; intros a Hl Hx Hr; simpl in *; [exact I|].
  destruct Hl as (Ha & Hs & _ & Hl). destruct Hr as (R1 & R2 & R3 & Hr).
  pose proof (layout_le _ _ Hl) as Hle.
  unfold footprint in *. rewrite metadata_size in *. fields.
  rewrite !Hx by lia. repeat split; auto.
  apply (IH (a + (32 + b_size b))); auto.
  intros x Hxr. apply Hx. lia.
Qed.

Lemma repr_store a l m t x v :
  layout a l -> x < a \/ chain_end a l <= x ->
  repr m l t -> repr (store x v m) l t.
Proof.
  intros Hl Hx. apply (repr_frame a); auto.
  intros y Hy. apply load_store_ne. lia.
Qed.

Lemma layout_in_bounds a l b :
  layout a l -> In b l -> a <= b_addr b /\ b_addr b + footprint b <= chain_end a l.
Proof.
  revert a. induction l as [|c l IH]; intros a Hl Hin; simpl in *; [tauto|].
  destruct Hl as (Hc & Hs & _ & Hl). pose proof (layout_le _ _ Hl) as Hle.
  destruct Hin as [->|Hin]; [lia|].
  specialize (IH _ Hl Hin). unfold footprint in *. rewrite metadata_size in *. lia.
Qed.

Lemma layout_aligned a l b :
  a mod ALIGNMENT = 0 -> layout a l -> In b l -> b_addr b mod ALIGNMENT = 0.
Proof.
  revert a. induction l as [|c l IH]; intros a Ha Hl Hin; simpl in *; [tauto|].
  destruct Hl as (Hc & Hs & Hm & Hl). destruct Hin as [->|Hin]; [congruence|].
  apply (IH (a + footprint c)); auto.
  unfold footprint, ALIGNMENT in *. rewrite metadata_size.
  rewrite Z.add_mod, Ha, (Z.add_mod 32), Hm by lia. reflexivity.
Qed.

Lemma chain_end_aligned a l :
  a mod ALIGNMENT = 0 -> layout a l -> chain_end a l mod ALIGNMENT = 0.
Proof.
  revert a. induction l as [|c l IH]; intros a Ha Hl; simpl in *; [exact Ha|].
  destruct Hl as (Hc & Hs & Hm & Hl). apply IH; auto.
  unfold footprint, ALIGNMENT in *. rewrite metadata_size.
  rewrite Z.add_mod, Ha, (Z.add_mod 32), Hm by lia. reflexivity.
Qed.

(** ** The search loop *)

Lemma scan_chain_spec l1 : forall rest a m s last fuel,
  0 < a -> layout a (l1 ++ rest) -> repr m (l1 ++ rest) NULL ->
  Forall (fun b => fits s b = false) l1 ->
  scan_chain (length l1 + fuel) m s (first_addr (l1 ++ rest) NULL) last
  = scan_chain fuel m s (first_addr rest NULL) (last_addr l1 last).
Proof.
  induction l1 as [|b l1 IH]; intros rest a m s last fuel Ha Hl Hr Hf.
  - reflexivity.
  - simpl in Hl, Hr. destruct Hl as (Hb & Hs & _ & Hl).
    destruct Hr as (R1 & R2 & R3 & Hr).
    inversion Hf as [|? ? Hfb Hf']; subst.
    cbn [length Nat.add scan_chain app first_addr last_addr].
    unfold NULL in *. destruct (Z.eqb_spec (b_addr b) 0) as [E|_]; [lia|].
    rewrite R1, R2, b2z_test. unfold fits in Hfb. rewrite Hfb.
    rewrite R3. apply (IH rest (b_addr b + footprint b)); auto.
    unfold footprint. rewrite metadata_size. lia.
Qed.

Lemma scan_chain_fit l1 b l2 a m s fuel :
  0 < a -> layout a (l1 ++ b :: l2) -> repr m (l1 ++ b :: l2) NULL ->
  Forall (fun c => fits s c = false) l1 -> fits s b = true ->
  (length l1 < fuel)%nat ->
  scan_chain fuel m s (first_addr (l1 ++ b :: l2) NULL) NULL = Some (Fit (b_addr b)).
Proof.
  intros Ha Hl Hr Hf Hb Hfuel.
  replace fuel with (length l1 + S (fuel - S (length l1)))%nat by lia.
  rewrite (scan_chain_spec l1 (b :: l2) a) by auto.
  apply layout_app in Hl. destruct Hl as (Hl1 & Hl2).
  apply repr_app in Hr. destruct Hr as (_ & R1 & R2 & _).
  pose proof (layout_le _ _ Hl1). simpl in Hl2. destruct Hl2 as (Hb' & _).
  cbn [scan_chain first_addr]. unfold NULL.
  destruct (Z.eqb_spec (b_addr b) 0) as [E|_]; [lia|].
  rewrite R1, R2, b2z_test. unfold fits in Hb. rewrite Hb. reflexivity.
Qed.

Lemma scan_chain_nofit l a m s fuel :
  0 < a -> layout a l -> repr m l NULL ->
  Forall (fun c => fits s c = false) l ->
  (length l < fuel)%nat ->
  scan_chain fuel m s (first_addr l NULL) NULL = Some (NoFit (last_addr l NULL)).
Proof.
  intros Ha Hl Hr Hf Hfuel.
  replace fuel with (length l + S (fuel - S (length l)))%nat by lia.
  pose proof (scan_chain_spec l [] a m s NULL (S (fuel - S (length l)))) as H.
  rewrite app_nil_r in H. rewrite H by auto. reflexivity.
Qed.

(** ** [split] on a chain *)

Ltac consts :=
  unfold MIN_BLOCK_SIZE, footprint, usable, INTPTR_MAX, SIZE_MAX, SIZE_MOD,
    SIZE_BITS, NULL in *;
  change ALIGNED_METADATA_SIZE with 32 in *;
  unfold ALIGNMENT in *;
  cbn [b_addr b_size b_free] in *.

Lemma split_blocks_layout x b s :
  b_addr b = x -> 0 <= b_size b -> b_size b mod ALIGNMENT = 0 ->
  0 <= s -> s mod ALIGNMENT = 0 -> s <= b_size b ->
  layout x (split_blocks b s)
  /\ chain_end x (split_blocks b s) = x + footprint b.
Proof.
  intros Hx Hb Hbm Hs Hsm Hle. unfold split_blocks. consts.
  destruct (Z.ltb_spec (b_size b) (s + (32 + 16))); simpl; consts.
  - repeat split; auto.
  - repeat split; auto; try lia.
    Z.div_mod_to_equations. lia.
Qed.

Lemma split_chain l1 b l2 a m s :
  0 < a -> layout a (l1 ++ b :: l2) ->
  chain_end a (l1 ++ b :: l2) <= INTPTR_MAX ->
  repr m (l1 ++ b :: l2) NULL ->
  0 <= s -> s <= b_size b ->
  exists m',
    split (b_addr b) s m = (b_addr b, m')
    /\ repr m' (l1 ++ split_blocks b s ++ l2) NULL.
Proof.
  intros Ha Hl Hend Hr Hs Hle.
  rewrite chain_end_app in Hend.
  apply layout_app in Hl. destruct Hl as (Hl1 & Hl2).
  apply repr_app in Hr. destruct Hr as (Hr1 & Hr2).
  simpl in Hl2, Hr2, Hr1, Hend.
  destruct Hl2 as (Hb & Hbs & Hbm & Hl2). destruct Hr2 as (R1 & R2 & R3 & Hr2).
  pose proof (layout_le _ _ Hl1) as Hle1. pose proof (layout_le _ _ Hl2) as Hle2.
  unfold split, split_blocks. rewrite R1.
  rewrite wrap_small by (consts; lia).
  destruct (Z.ltb_spec (b_size b) (s + MIN_BLOCK_SIZE)) as [Hlt|Hge].
  - eexists; split; [reflexivity|].
    apply repr_app; split.
    + fields. apply (repr_store a); auto. consts; lia.
    + simpl. fields. mem_simpl. repeat split; auto.
      apply (repr_store _ _ _ _ _ _ Hl2); [consts; lia | exact Hr2].
  - rewrite wrap_small by (consts; lia).
    eexists; split; [reflexivity|].
    apply repr_app; split.
    + fields. simpl.
      repeat (apply (repr_store a); [exact Hl1 | consts; lia |]). exact Hr1.
    + simpl. fields. consts. mem_simpl. repeat split; auto.
      repeat (apply (repr_store _ _ _ _ _ _ Hl2); [lia |]). exact Hr2.
Qed.

Lemma split_chain_layout l1 b l2 a s :
  layout a (l1 ++ b :: l2) ->
  0 <= s -> s mod ALIGNMENT = 0 -> s <= b_size b ->
  layout a (l1 ++ split_blocks b s ++ l2)
  /\ chain_end a (l1 ++ split_blocks b s ++ l2) = chain_end a (l1 ++ b :: l2).
Proof.
  intros Hl Hs Hsm Hle.
  apply layout_app in Hl. destruct Hl as (Hl1 & Hl2). simpl in Hl2.
  destruct Hl2 as (Hb & Hbs & Hbm & Hl2).
  destruct (split_blocks_layout _ b s Hb Hbs Hbm Hs Hsm Hle) as (Hsl & Hse).
  rewrite !chain_end_app. simpl. rewrite Hse. split; [|reflexivity].
  apply layout_app; split; auto. apply layout_app; split; auto.
  rewrite Hse. exact Hl2.
Qed.

(** ** [coalesce] on a chain *)

Lemma absorbed_layout fs : forall x ba sz fr l2,
  layout x (mkBlock ba sz fr :: fs ++ l2) ->
  layout x (mkBlock ba (absorbed sz fs) fr :: l2)
  /\ chain_end x (mkBlock ba (absorbed sz fs) fr :: l2)
     = chain_end x (mkBlock ba sz fr :: fs ++ l2)
  /\ sz <= absorbed sz fs.
Proof.
  induction fs as [|f fs IH]; intros x ba sz fr l2 Hl.
  - simpl in *. repeat split; try tauto. lia.
  - cbn [absorbed fold_left]. fold (absorbed (sz + footprint f) fs).
    destruct (IH x ba (sz + footprint f) fr l2) as (H1 & H2 & H3).
    + simpl in *. consts. simpl in *.
      destruct Hl as (? & ? & ? & ? & ? & ? & Hl).
      repeat split; auto; try lia.
      * Z.div_mod_to_equations. lia.
      * replace (x + (32 + (sz + (32 + b_size f)))) with (x + (32 + sz) + (32 + b_size f)) by lia.
        exact Hl.
    + split; [exact H1|]. split.
      * rewrite H2. simpl. consts. simpl. f_equal. lia.
      * simpl in Hl. consts. lia.
Qed.

Lemma absorb_next_spec fs : forall ba sz fr l2 m fuel,
  0 < ba ->
  layout ba (mkBlock ba sz fr :: fs ++ l2) ->
  chain_end ba (mkBlock ba sz fr :: fs ++ l2) <= INTPTR_MAX ->
  repr m (mkBlock ba sz fr :: fs ++ l2) NULL ->
  Forall (fun f => b_free f = true) fs -> first_free l2 = false ->
  (length fs < fuel)%nat ->
  exists m',
    absorb_next fuel ba m = Some m'
    /\ repr m' (mkBlock ba (absorbed sz fs) fr :: l2) NULL
    /\ (forall x, x <> ba + OFF_SIZE -> x <> ba + OFF_NEXT -> load m' x = load m x).
Proof.
  induction fs as [|f fs IH]; intros ba sz fr l2 m fuel Hba Hl Hend Hr Hfs Hl2 Hfuel.
  - destruct fuel as [|fuel]; [simpl in Hfuel; lia|].
    exists m. simpl in *. destruct Hr as (R1 & R2 & R3 & Hr).
    destruct Hl as (_ & Hsz & _ & Hl).
    split; [|split; [tauto | reflexivity]].
    rewrite R3. destruct l2 as [|c l2]; simpl.
    + reflexivity.
    + simpl in Hr, Hl, Hl2. destruct Hr as (_ & Rc & _). destruct Hl as (Hc & _).
      rewrite Rc, Hl2. simpl.
      destruct (b_addr c =? NULL); reflexivity.
  - destruct fuel as [|fuel]; [simpl in Hfuel; lia|].
    inversion Hfs as [|? ? Hf Hfs']; subst.
    cbn [app layout repr first_addr chain_end] in Hl, Hr, Hend.
    destruct Hl as (_ & Hsz & Hszm & Hfa & Hfsz & Hfm & Hl).
    destruct Hr as (R1 & R2 & R3 & F1 & F2 & F3 & Hr).
    pose proof (layout_le _ _ Hl) as Hle.
    cbn [absorb_next]. consts. rewrite R3, F2, Hf, R1, F1.
    assert (Hnz : (b_addr f =? 0) = false) by (apply Z.eqb_neq; lia).
    rewrite Hnz. cbn [negb andb Z.b2z Z.eqb].
    rewrite (wrap_small (32 + b_size f)) by (consts; lia).
    rewrite wrap_small by (consts; lia).
    set (m1 := set_size ba _ m).
    assert (N1 : get_next m1 ba = b_addr f).
    { subst m1. fields. mem_simpl. exact R3. }
    assert (N2 : get_next m1 (b_addr f) = first_addr (fs ++ l2) 0).
    { subst m1. fields. mem_simpl. exact F3. }
    rewrite N1, N2.
    replace (ba + (32 + sz) + (32 + b_size f))
      with (ba + (32 + (sz + (32 + b_size f)))) in * by lia.
    destruct (IH ba (sz + (32 + b_size f)) fr l2
                (set_next ba (first_addr (fs ++ l2) 0) m1) fuel)
      as (m' & Hm' & Hr' & Hfr); auto.
    + cbn [layout]. consts. repeat split; auto; try lia.
      Z.div_mod_to_equations. lia.
    + cbn [repr]. consts. subst m1. fields. mem_simpl.
      repeat split; auto.
      repeat (apply (repr_store _ _ _ _ _ _ Hl); [lia |]).
      exact Hr.
    + simpl in Hfuel. lia.
    + exists m'. split; [exact Hm'|]. split.
      * cbn [absorbed fold_left]. consts. exact Hr'.
      * intros x Hx1 Hx2. rewrite Hfr by auto. subst m1. fields. mem_simpl. reflexivity.
Qed.

Lemma find_prev_spec l1 : forall b a m prev fuel,
  0 < a -> layout a (l1 ++ [b]) -> repr m l1 (b_addr b) ->
  (length l1 < fuel)%nat ->
  find_prev fuel m (b_addr b) (first_addr l1 (b_addr b)) prev
  = Some (last_addr l1 prev).
Proof.
  induction l1 as [|c l1 IH]; intros b a m prev fuel Ha Hl Hr Hfuel.
  - destruct fuel; [simpl in Hfuel; lia|]. simpl.
    rewrite Z.eqb_refl. simpl. rewrite andb_false_r. reflexivity.
  - destruct fuel; [simpl in Hfuel; lia|].
    cbn [app layout repr first_addr find_prev last_addr] in *.
    destruct Hl as (Hc & Hcs & _ & Hl). destruct Hr as (_ & _ & R3 & Hr).
    pose proof Hl as Hl'. apply layout_app in Hl'. destruct Hl' as (Hl1 & Hb).
    simpl in Hb. pose proof (layout_le _ _ Hl1) as Hle.
    assert (E1 : (b_addr c =? NULL) = false) by (apply Z.eqb_neq; consts; lia).
    assert (E2 : (b_addr c =? b_addr b) = false) by (apply Z.eqb_neq; consts; lia).
    rewrite E1, E2, R3. simpl.
    apply (IH b (a + footprint c)); auto.
    + consts; lia.
    + simpl in Hfuel. lia.
Qed.

(** ** [mallocate] on a well-formed heap *)

Lemma heap_inv_base_start st l :
  heap_inv st l -> heap_start st <> NULL -> arena_base st = heap_start st.
Proof.
  intros _ H. unfold arena_base.
  destruct (Z.eqb_spec (heap_start st) NULL); congruence.
Qed.

Lemma sbrk_query st :
  sbrk 0 st
  = (brk st,
     mkHeap (mem st) (head st) (heap_start st) (brk st) (brk_lo st) (brk_hi st)
       (0 :: sbrk_calls st)).
Proof. unfold sbrk. rewrite Z.add_0_r. reflexivity. Qed.

(** After its first statement [mallocate] works on the same heap, with
    [heap_start] set. *)
Lemma init_heap_start_inv st l :
  heap_inv st l ->
  let st1 := init_heap_start st in
  heap_inv st1 l
  /\ heap_start st1 = arena_base st /\ heap_start st1 <> NULL
  /\ mem st1 = mem st /\ head st1 = head st /\ brk st1 = brk st
  /\ brk_lo st1 = brk_lo st /\ brk_hi st1 = brk_hi st
  /\ sbrk_calls st1
     = (if heap_start st =? NULL then [0] else []) ++ sbrk_calls st.
Proof.
  intros Hinv. pose proof Hinv as [I1 I2 I3 I4 I5 I6 I7 I8 I9].
  unfold init_heap_start, arena_base in *.
  destruct (Z.eqb_spec (heap_start st) NULL) as [E|E].
  - rewrite sbrk_query. cbv zeta.
    assert (Hb : (brk st =? NULL) = false) by (apply Z.eqb_neq; unfold NULL; lia).
    split; [|repeat split; auto; simpl; unfold NULL; lia].
    constructor; unfold arena_base; simpl; rewrite ?Hb; auto.
  - cbv zeta. split; [exact Hinv|]. repeat split; auto.
Qed.

Lemma heap_inv_head_nonnull st l b :
  heap_inv st l -> In b l -> head st <> NULL.
Proof.
  intros [I1 I2 I3 I4 I5 I6 I7 I8 I9] Hin. rewrite I3.
  destruct l as [|c l]; [destruct Hin|].
  simpl in *. destruct I4 as (Hc & _). unfold NULL. lia.
Qed.

(** Either no block fits, or there is a first one that does. *)
Lemma first_fit_cases s l :
  Forall (fun c => fits s c = false) l
  \/ exists l1 b l2,
       l = l1 ++ b :: l2 /\ Forall (fun c => fits s c = false) l1
       /\ fits s b = true.
Proof.
  induction l as [|c l IH].
  - left. constructor.
  - destruct (fits s c) eqn:Hc.
    + right. exists [], c, l. repeat split; auto.
    + destruct IH as [IH | (l1 & b & l2 & -> & Hf & Hb)].
      * left. constructor; auto.
      * right. exists (c :: l1), b, l2. repeat split; auto.
Qed.

(** Rewriting headers in place: same arena, another chain. *)
Lemma heap_inv_with_mem st l m' l' :
  heap_inv st l ->
  (l = [] -> l' = []) ->
  layout (arena_base st) l' ->
  chain_end (arena_base st) l' = chain_end (arena_base st) l ->
  first_addr l' NULL = first_addr l NULL ->
  repr m' l' NULL ->
  heap_inv (with_mem m' st) l'.
Proof.
  intros [I1 I2 I3 I4 I5 I6 I7 I8 I9] Hnil Hl He Hf Hr.
  constructor.
  - intros E. apply Hnil, I1, E.
  - exact I2.
  - simpl. rewrite Hf. exact I3.
  - exact Hl.
  - change (arena_base (with_mem m' st)) with (arena_base st).
    rewrite He. exact I5.
  - exact I6.
  - exact I7.
  - exact I8.
  - exact Hr.
Qed.

Lemma mallocate_fit_chain st l1 b l2 size fuel :
  heap_inv st (l1 ++ b :: l2) ->
  Forall (fun c => fits (align size) c = false) l1 ->
  fits (align size) b = true ->
  (length l1 < fuel)%nat ->
  exists st',
    mallocate fuel size st = Some (usable b, st')
    /\ heap_inv st' (l1 ++ split_blocks b (align size) ++ l2)
    /\ sbrk_calls st' = sbrk_calls st
    /\ brk st' = brk st.
Proof.
  intros Hinv Hno Hfit Hfuel.
  pose proof Hinv as [I1 I2 I3 I4 I5 I6 I7 I8 I9].
  assert (Hs : heap_start st <> NULL).
  { intros E. apply I1 in E. destruct l1; discriminate. }
  assert (Hh : head st <> NULL).
  { apply (heap_inv_head_nonnull st _ b Hinv). apply in_or_app. right. left. reflexivity. }
  pose proof (align_range size) as Har. pose proof (align_mod size) as Ham.
  unfold fits in Hfit. apply andb_prop in Hfit. destruct Hfit as (Hbf & Hbs).
  apply Z.leb_le in Hbs.
  destruct (split_chain l1 b l2 (arena_base st) (mem st) (align size))
    as (m' & Hsp & Hr'); auto; try lia.
  destruct (split_chain_layout l1 b l2 (arena_base st) (align size))
    as (Hl' & He'); auto; try lia.
  unfold mallocate, init_heap_start.
  destruct (Z.eqb_spec (heap_start st) NULL) as [E|_]; [contradiction|].
  destruct (Z.eqb_spec (head st) NULL) as [E|_]; [contradiction|].
  rewrite I3.
  rewrite (scan_chain_fit l1 b l2 (arena_base st)); auto.
  - rewrite Hsp. exists (with_mem m' st). split; [reflexivity|].
    split; [|split; reflexivity].
    apply (heap_inv_with_mem st (l1 ++ b :: l2)); auto.
    + intros E. destruct l1; discriminate.
    + rewrite !first_addr_app.
      destruct l1; [|reflexivity]. simpl.
      unfold split_blocks. destruct (b_size b <? _); reflexivity.
  - unfold fits. rewrite Hbf. simpl. apply Z.leb_le. exact Hbs.
Qed.

Lemma last_addr_bounds l : forall x d,
  layout x l -> l <> [] ->
  x <= last_addr l d /\ last_addr l d + ALIGNED_METADATA_SIZE <= chain_end x l.
Proof.
  induction l as [|c l IH]; intros x d Hl Hne; [congruence|].
  simpl in *. destruct Hl as (Hc & Hs & _ & Hl).
  destruct l as [|c' l].
  - simpl. consts. lia.
  - destruct (IH (x + footprint c) (b_addr c) Hl) as (H1 & H2); [discriminate|].
    consts. lia.
Qed.

(** Redirecting the [next] link of the last block of a chain. *)
Lemma repr_retarget l : forall a m t t' d,
  layout a l -> l <> [] -> repr m l t ->
  repr (set_next (last_addr l d) t' m) l t'.
Proof.
  induction l as [|c l IH]; intros a m t t' d Hl Hne Hr; [congruence|].
  cbn [layout repr last_addr] in *.
  destruct Hl as (Hc & Hs & _ & Hl). destruct Hr as (R1 & R2 & R3 & Hr).
  destruct l as [|c' l].
  - simpl. fields. mem_simpl. auto.
  - destruct (last_addr_bounds (c' :: l) _ (b_addr c) Hl) as (B1 & B2); [discriminate|].
    specialize (IH _ m t t' (b_addr c) Hl ltac:(discriminate) Hr).
    fields. consts. mem_simpl. auto.
Qed.

Lemma sbrk_cases inc st :
  sbrk inc st
  = (brk st, mkHeap (mem st) (head st) (heap_start st) (brk st + inc)
               (brk_lo st) (brk_hi st) (inc :: sbrk_calls st))
    /\ (inc = 0 \/ brk_lo st <= brk st + inc <= brk_hi st)
  \/ sbrk inc st
     = (SBRK_FAILED, mkHeap (mem st) (head st) (heap_start st) (brk st)
                       (brk_lo st) (brk_hi st) (inc :: sbrk_calls st))
    /\ inc <> 0.
Proof.
  unfold sbrk.
  destruct (Z.eqb_spec inc 0) as [E|E]; simpl.
  - left. auto.
  - destruct (Z.leb_spec (brk_lo st) (brk st + inc));
      destruct (Z.leb_spec (brk st + inc) (brk_hi st)); simpl; auto.
Qed.

Lemma sbrk_fst_eq inc st st1 :
  brk st1 = brk st -> brk_lo st1 = brk_lo st -> brk_hi st1 = brk_hi st ->
  fst (sbrk inc st1) = fst (sbrk inc st).
Proof. intros E1 E2 E3. unfold sbrk. rewrite E1, E2, E3. destruct (_ || _); reflexivity. Qed.

Lemma heap_inv_log st l inc :
  heap_inv st l ->
  heap_inv (mkHeap (mem st) (head st) (heap_start st) (brk st) (brk_lo st)
              (brk_hi st) (inc :: sbrk_calls st)) l.
Proof. intros [I1 I2 I3 I4 I5 I6 I7 I8 I9]. constructor; auto. Qed.

(** The growth path, for any request: what is asked of [sbrk], and what is
    written when it succeeds. *)
Lemma mallocate_grow_raw st l size fuel :
  heap_inv st l ->
  Forall (fun c => fits (align size) c = false) l ->
  (length l < fuel)%nat ->
  let inc := to_intptr (wrap (ALIGNED_METADATA_SIZE + align size)) in
  exists p st',
    mallocate fuel size st = Some (p, st')
    /\ sbrk_calls st'
       = inc :: (if heap_start st =? NULL then [0] else []) ++ sbrk_calls st
    /\ heap_start st' = arena_base st
    /\ brk_lo st' = brk_lo st /\ brk_hi st' = brk_hi st
    /\ if fst (sbrk inc st) =? SBRK_FAILED then
         p = NULL /\ mem st' = mem st /\ head st' = head st
         /\ brk st' = brk st /\ heap_inv st' l
       else
         p = brk st + ALIGNED_METADATA_SIZE
         /\ brk st' = brk st + inc
         /\ (inc = 0 \/ brk_lo st <= brk st + inc <= brk_hi st)
         /\ head st' = first_addr (l ++ [grown st size]) NULL
         /\ layout (arena_base st) (l ++ [grown st size])
         /\ repr (mem st') (l ++ [grown st size]) NULL.
Proof.
  intros Hinv Hno Hfuel inc.
  destruct (init_heap_start_inv st l Hinv)
    as (Hinv1 & Hs1 & Hs1nz & Hm1 & Hh1 & Hb1 & Hlo1 & Hhi1 & Hc1).
  pose proof Hinv as [I1 I2 I3 I4 I5 I6 I7 I8 I9].
  pose proof (align_range size) as Har. pose proof (align_mod size) as Ham.
  rewrite <- (sbrk_fst_eq inc st (init_heap_start st)) by auto.
  unfold mallocate. fold inc.
  set (st1 := init_heap_start st) in *.
  assert (Hbrk : (brk st =? SBRK_FAILED) = false).
  { apply Z.eqb_neq. consts. unfold SBRK_FAILED. consts. lia. }
  assert (Hlay : layout (arena_base st) (l ++ [grown st size])).
  { apply layout_app. split; [exact I4|]. rewrite I5. simpl. repeat split; auto; lia. }
  assert (Hinit : forall m, repr m l NULL ->
            repr (init_block (brk st) (align size) m) l NULL).
  { intros m Hm. fields.
    repeat (apply (repr_store _ _ _ _ _ _ I4); [lia|]). exact Hm. }
  destruct l as [|c l].
  - (* empty chain *)
    rewrite Hh1, I3. cbn [first_addr] in *. rewrite Z.eqb_refl.
    destruct (sbrk_cases inc st1) as [(E & Hok)|(E & Hnz)]; rewrite E; cbn [fst].
    + rewrite Hb1, Hbrk. eexists _, _. split; [reflexivity|].
      cbn [with_head with_mem mem head heap_start brk brk_lo brk_hi sbrk_calls].
      rewrite Hb1, Hlo1, Hhi1 in Hok. rewrite Hm1.
      split_and!; try assumption; try congruence; try reflexivity.
      simpl. fields. mem_simpl. auto.
    + unfold SBRK_FAILED. rewrite Z.eqb_refl. eexists _, _. split; [reflexivity|].
      cbn [mem head heap_start brk brk_lo brk_hi sbrk_calls].
      split_and!; try assumption; try congruence.
      apply heap_inv_log, Hinv1.
  - (* non-empty chain without a fit *)
    assert (Hh : (head st1 =? NULL) = false).
    { apply Z.eqb_neq. rewrite Hh1.
      apply (heap_inv_head_nonnull st _ c Hinv). left. reflexivity. }
    rewrite Hh, Hh1, I3, Hm1.
    rewrite (scan_chain_nofit (c :: l) (arena_base st)); auto.
    destruct (sbrk_cases inc st1) as [(E & Hok)|(E & Hnz)]; rewrite E; cbn [fst].
    + rewrite Hb1, Hbrk. eexists _, _. split; [reflexivity|].
      cbn [with_head with_mem mem head heap_start brk brk_lo brk_hi sbrk_calls].
      rewrite Hb1, Hlo1, Hhi1 in Hok. rewrite Hm1.
      split_and!; try assumption; try congruence.
      { rewrite Hh1, I3. reflexivity. }
      apply repr_app. split.
      * apply (repr_retarget (c :: l) (arena_base st) _ NULL);
          [exact I4 | discriminate | apply Hinit; exact I9].
      * destruct (last_addr_bounds (c :: l) (arena_base st) NULL I4) as (B1 & B2);
          [discriminate|].
        simpl in *. fields. consts. mem_simpl. auto.
    + unfold SBRK_FAILED. rewrite Z.eqb_refl. eexists _, _. split; [reflexivity|].
      cbn [mem head heap_start brk brk_lo brk_hi sbrk_calls].
      split_and!; try assumption; try congruence.
      apply heap_inv_log, Hinv1.
Qed.

Lemma mallocate_grow_chain st l size fuel :
  heap_inv st l -> representable size ->
  Forall (fun c => fits (align size) c = false) l ->
  (length l < fuel)%nat ->
  let total := ALIGNED_METADATA_SIZE + align size in
  exists p st',
    mallocate fuel size st = Some (p, st')
    /\ sbrk_calls st'
       = total :: (if heap_start st =? NULL then [0] else []) ++ sbrk_calls st
    /\ if fst (sbrk total st) =? SBRK_FAILED then
         p = NULL /\ mem st' = mem st /\ head st' = head st
         /\ brk st' = brk st /\ heap_inv st' l
       else
         p = brk st + ALIGNED_METADATA_SIZE
         /\ brk st' = brk st + total
         /\ heap_inv st' (l ++ [grown st size]).
Proof.
  intros Hinv Hrep Hno Hfuel total. subst total.
  destruct (representable_total size Hrep) as (Htot & Hpos).
  destruct (mallocate_grow_raw st l size fuel Hinv Hno Hfuel)
    as (p & st' & Hm & Hc & Hs & Hlo & Hhi & Hres).
  cbv zeta in Hres. rewrite Htot in Hc, Hres.
  exists p, st'. split; [exact Hm|]. split; [exact Hc|].
  destruct (fst (sbrk _ st) =? SBRK_FAILED); [exact Hres|].
  destruct Hres as (Hp & Hb & Hok & Hh & Hl & Hr).
  split_and!; auto.
  pose proof Hinv as [I1 I2 I3 I4 I5 I6 I7 I8 I9].
  assert (Hbase : arena_base st' = arena_base st).
  { unfold arena_base at 1. rewrite Hs.
    destruct (Z.eqb_spec (arena_base st) NULL); [unfold NULL in *; lia | reflexivity]. }
  constructor; rewrite ?Hbase, ?Hlo, ?Hhi, ?Hb; auto; try lia.
  - intros E. rewrite Hs in E. unfold NULL in *. lia.
  - rewrite chain_end_app, I5. simpl. unfold footprint. simpl. lia.
Qed.

(** ** Neighbouring free blocks *)

Lemma first_free_app l1 l2 :
  first_free (l1 ++ l2) = match l1 with [] => first_free l2 | c :: _ => b_free c end.
Proof. destruct l1; reflexivity. Qed.

Lemma last_free_snoc l q : last_free (l ++ [q]) = b_free q.
Proof.
  induction l as [|c l IH]; [reflexivity|].
  cbn [app last_free]. destruct (l ++ [q]) eqn:E.
  - destruct l; discriminate.
  - exact IH.
Qed.

Lemma no_adjacent_free_app l1 l2 :
  no_adjacent_free (l1 ++ l2)
  <-> no_adjacent_free l1 /\ no_adjacent_free l2
      /\ last_free l1 && first_free l2 = false.
Proof.
  induction l1 as [|c l1 IH].
  - simpl. tauto.
  - cbn [app no_adjacent_free]. rewrite IH, first_free_app.
    destruct l1 as [|c' l1]; simpl; rewrite ?andb_false_r; tauto.
Qed.

(** Every list starts with a run of free blocks that ends at a block in
    use or at the end. *)
Lemma free_run_split l :
  exists fs l2,
    l = fs ++ l2 /\ Forall (fun f => b_free f = true) fs /\ first_free l2 = false.
Proof.
  induction l as [|c l (fs & l2 & -> & Hfs & Hl2)].
  - exists [], []. repeat split; constructor.
  - destruct (b_free c) eqn:Hc.
    + exists (c :: fs), l2. repeat split; auto.
    + exists [], (c :: fs ++ l2). repeat split; auto.
Qed.

(** Every block of a chain has a place in it: what precedes its
    predecessor, the predecessor, the block, the free run behind it and
    the rest. *)
Lemma chain_around l b :
  In b l ->
  exists l0 pred fs l2,
    l = l0 ++ option_list pred ++ b :: fs ++ l2
    /\ (pred = None -> l0 = [])
    /\ Forall (fun f => b_free f = true) fs /\ first_free l2 = false.
Proof.
  intros Hin. apply in_split in Hin. destruct Hin as (la & lb & ->).
  destruct (free_run_split lb) as (fs & l2 & -> & Hfs & Hl2).
  destruct la as [|c la] using rev_ind.
  - exists [], None, fs, l2. repeat split; auto.
  - exists la, (Some c), fs, l2. rewrite <- app_assoc. repeat split; auto.
    discriminate.
Qed.

Lemma split_blocks_no_adjacent_free l1 b l2 s :
  b_free b = true ->
  no_adjacent_free (l1 ++ b :: l2) ->
  no_adjacent_free (l1 ++ split_blocks b s ++ l2).
Proof.
  intros Hb. rewrite !no_adjacent_free_app. cbn [no_adjacent_free first_free].
  rewrite Hb. intros (H1 & (H2 & H3) & H4).
  rewrite andb_true_r in H4. rewrite H4. simpl in H2.
  unfold split_blocks.
  destruct (b_size b <? s + MIN_BLOCK_SIZE); simpl; rewrite ?H2; tauto.
Qed.

Lemma coalesced_no_adjacent_free l0 pred b fs l2 :
  (pred = None -> l0 = []) ->
  first_free l2 = false ->
  no_adjacent_free (l0 ++ option_list pred ++ b :: fs ++ l2) ->
  no_adjacent_free (l0 ++ coalesced pred b fs ++ l2).
Proof.
  intros Hnone Hl2 H.
  apply no_adjacent_free_app in H. destruct H as (H0 & Hrest & Hlp).
  apply no_adjacent_free_app in Hrest. destruct Hrest as (Hp & Hb & Hlq).
  cbn [no_adjacent_free] in Hb. destruct Hb as (_ & Hfs).
  apply no_adjacent_free_app in Hfs. destruct Hfs as (_ & Hn2 & _).
  unfold coalesced.
  apply no_adjacent_free_app.
  destruct pred as [q|]; simpl in Hp, Hlq, Hlp.
  - destruct (b_free q) eqn:Hq;
      cbn [no_adjacent_free first_free last_free app b_free].
    + rewrite andb_true_r in Hlp. rewrite Hl2, Hlp. auto.
    + rewrite Hl2, Hq, !andb_false_r. auto.
  - cbn [no_adjacent_free first_free last_free app b_free].
    rewrite Hl2, Hnone by reflexivity. auto.
Qed.

Lemma coalesced_free_run l0 pred b fs l2 :
  (pred = None -> l0 = []) ->
  first_free l2 = false ->
  no_adjacent_free (l0 ++ option_list pred) ->
  free_run_of_one (l0 ++ coalesced pred b fs ++ l2) (survivor pred b).
Proof.
  intros Hnone Hl2 H.
  apply no_adjacent_free_app in H. destruct H as (_ & _ & Hlp).
  unfold coalesced, survivor, free_run_of_one.
  destruct pred as [q|]; simpl in Hlp.
  - destruct (b_free q) eqn:Hq.
    + rewrite andb_true_r in Hlp.
      eexists l0, _, l2. split; [reflexivity|]. auto.
    + eexists (l0 ++ [q]), _, l2. rewrite <- app_assoc.
      split; [reflexivity|]. rewrite last_free_snoc. auto.
  - eexists l0, _, l2. split; [reflexivity|]. repeat split; auto.
    rewrite Hnone by reflexivity. reflexivity.
Qed.

(** ** [coalesce] on a well-formed heap *)

Lemma coalesce_chain st l0 pred b fs l2 fuel :
  heap_inv st (l0 ++ option_list pred ++ b :: fs ++ l2) ->
  (pred = None -> l0 = []) ->
  b_free b = true ->
  Forall (fun f => b_free f = true) fs -> first_free l2 = false ->
  (length (l0 ++ option_list pred ++ b :: fs ++ l2) < fuel)%nat ->
  exists st',
    coalesce fuel (b_addr b) st = Some (survivor pred b, st')
    /\ heap_inv st' (l0 ++ coalesced pred b fs ++ l2)
    /\ sbrk_calls st' = sbrk_calls st
    /\ brk st' = brk st
    /\ heap_start st' = heap_start st
    /\ get_free (mem st') (b_addr b) = get_free (mem st) (b_addr b).
Proof.
  intros Hinv Hnone Hb Hfs Hl2 Hfuel.
  destruct b as [ba sz fr]. simpl in Hb. subst fr.
  set (B := mkBlock ba sz true) in *.
  set (P := l0 ++ option_list pred).
  assert (HP : l0 ++ option_list pred ++ B :: fs ++ l2 = P ++ B :: fs ++ l2).
  { unfold P. rewrite <- app_assoc. reflexivity. }
  rewrite HP in Hinv, Hfuel.
  pose proof Hinv as [I1 I2 I3 I4 I5 I6 I7 I8 I9].
  apply layout_app in I4. destruct I4 as (LP & LB).
  apply repr_app in I9. destruct I9 as (RP & RB).
  rewrite chain_end_app in I5.
  pose proof (layout_le _ _ LP) as HleP.
  assert (Hba : chain_end (arena_base st) P = ba) by (simpl in LB; symmetry; tauto).
  rewrite Hba in *.
  destruct (absorb_next_spec fs ba sz true l2 (mem st) fuel)
    as (m1 & Habs & Hr1 & Hfr);
    [ lia | exact LB | fold B; rewrite I5; lia | exact RB | exact Hfs | exact Hl2
    | rewrite length_app in Hfuel; simpl in Hfuel; rewrite length_app in Hfuel; lia
    | ].
  destruct (absorbed_layout fs ba ba sz true l2 LB) as (LB' & EB' & Hsz).
  set (B' := mkBlock ba (absorbed sz fs) true) in *.
  assert (RP1 : repr m1 P ba).
  { apply (repr_frame (arena_base st) P (mem st)); auto.
    intros x Hx. apply Hfr; unfold OFF_SIZE, OFF_NEXT; lia. }
  assert (Hfind : find_prev fuel m1 ba (head st) NULL = Some (last_addr P NULL)).
  { rewrite I3, first_addr_app. cbn [first_addr b_addr].
    apply (find_prev_spec P B' (arena_base st) m1 NULL fuel); auto.
    - apply layout_app. split; auto. rewrite Hba. simpl in *. tauto.
    - rewrite length_app in Hfuel. lia. }
  assert (Hflag : get_free m1 ba = get_free (mem st) ba).
  { unfold get_free. apply Hfr; unfold OFF_SIZE, OFF_FREE, OFF_NEXT; lia. }
  change (b_addr B) with ba. change (b_size B) with sz.
  unfold coalesce. rewrite Habs, Hfind.
  assert (Hkeep : heap_inv (with_mem m1 st) (P ++ B' :: l2)).
  { apply (heap_inv_with_mem st (P ++ B :: fs ++ l2)); auto.
    - intros E. destruct P; discriminate.
    - apply layout_app. rewrite Hba. auto.
    - rewrite !chain_end_app, Hba. exact EB'.
    - rewrite !first_addr_app. reflexivity.
    - apply repr_app. auto. }
  destruct pred as [q|].
  - (* there is a predecessor *)
    assert (Hlast : last_addr P NULL = b_addr q).
    { unfold P. rewrite last_addr_app. reflexivity. }
    rewrite Hlast.
    unfold P in LP, RP1, Hba, Hkeep. simpl in LP, RP1, Hba, Hkeep.
    apply layout_app in LP. destruct LP as (L0 & Lq).
    apply repr_app in RP1. destruct RP1 as (R0 & Rq).
    rewrite chain_end_app in Hba.
    pose proof (layout_le _ _ L0) as Hle0.
    simpl in Lq, Rq, Hba. destruct Lq as (Hq & Hqs & Hqm & _).
    destruct Rq as (Q1 & Q2 & Q3 & _).
    assert (Hqnz : (b_addr q =? NULL) = false) by (apply Z.eqb_neq; unfold NULL; lia).
    rewrite Hqnz, Q2, b2z_test. cbn [negb andb survivor coalesced b_addr b_size].
    destruct (b_free q) eqn:Hqf.
    + (* the predecessor is free: it absorbs the block *)
      simpl in Hr1, LB'. destruct Hr1 as (S1 & S2 & S3 & Rl2).
      destruct LB' as (_ & Hsz0 & Hszm & Ll2).
      pose proof (layout_le _ _ Ll2) as Hle2.
      subst B B'. simpl in EB', I5. consts.
      rewrite Q1, S1.
      rewrite (wrap_small (32 + absorbed sz fs)) by (consts; lia).
      rewrite wrap_small by (consts; lia).
      eexists. split; [reflexivity|].
      cbn [with_mem mem sbrk_calls brk heap_start].
      split_and!; auto.
      * apply (heap_inv_with_mem st (P ++ mkBlock ba sz true :: fs ++ l2)); auto.
        -- intros E. destruct P; discriminate.
        -- apply layout_app. split; auto. simpl. consts.
           split_and!; auto; try lia.
           ++ Z.div_mod_to_equations. lia.
           ++ replace (chain_end (arena_base st) l0 + (32 + (b_size q + (32 + absorbed sz fs))))
                with (ba + (32 + absorbed sz fs)) by lia.
              exact Ll2.
        -- unfold P. rewrite !chain_end_app. simpl. consts.
           rewrite Hba, <- EB'. f_equal. lia.
        -- unfold P. rewrite <- !app_assoc, !first_addr_app. simpl.
           destruct l0; reflexivity.
        -- apply repr_app. split.
           ++ simpl. fields.
              repeat (apply (repr_store _ _ _ _ _ _ L0); [lia|]). exact R0.
           ++ simpl. fields. mem_simpl. rewrite Q2, S3.
              split_and!; auto.
              repeat (apply (repr_store _ _ _ _ _ _ Ll2); [lia|]). exact Rl2.
      * fields. mem_simpl. exact Hflag.
    + (* the predecessor is in use *)
      eexists. split; [reflexivity|].
      cbn [with_mem mem sbrk_calls brk heap_start].
      split_and!; auto.
      rewrite <- app_assoc in Hkeep. exact Hkeep.
  - (* the block is the head of the chain *)
    unfold P in *. clear P HP. pose proof (Hnone eq_refl) as E0. subst l0.
    simpl in *.
    eexists. split; [reflexivity|].
    cbn [with_mem mem sbrk_calls brk heap_start].
    split_and!; auto.
Qed.

(** ** [mfree] on a well-formed heap *)

Lemma marked_inv st P b R :
  heap_inv st (P ++ b :: R) ->
  heap_inv (marked (b_addr b) st) (P ++ mkBlock (b_addr b) (b_size b) true :: R).
Proof.
  intros Hinv. unfold marked. rewrite sbrk_query. cbn [snd].
  apply (heap_inv_log st _ 0) in Hinv.
  pose proof Hinv as [I1 I2 I3 I4 I5 I6 I7 I8 I9].
  apply (heap_inv_with_mem _ (P ++ b :: R)); auto.
  - intros E. destruct P; discriminate.
  - apply layout_app in I4. apply layout_app. simpl in *. tauto.
  - rewrite !chain_end_app. reflexivity.
  - rewrite !first_addr_app. reflexivity.
  - cbn [mem]. apply layout_app in I4. destruct I4 as (LP & LR).
    apply repr_app in I9. destruct I9 as (RP & RR).
    pose proof (layout_le _ _ LP). simpl in LR, RR.
    destruct LR as (Hb & Hs & _ & LR). destruct RR as (R1 & R2 & R3 & RR).
    pose proof (layout_le _ _ LR).
    apply repr_app. split.
    + fields. apply (repr_store _ _ _ _ _ _ LP); [lia | exact RP].
    + simpl. fields. consts. mem_simpl. split_and!; auto.
      apply (repr_store _ _ _ _ _ _ LR); [lia | exact RR].
Qed.

Lemma mfree_chain st l0 pred b fs l2 fuel :
  heap_inv st (l0 ++ option_list pred ++ b :: fs ++ l2) ->
  (pred = None -> l0 = []) ->
  b_free b = false -> usable b < brk st -> is_aligned (usable b) = true ->
  Forall (fun f => b_free f = true) fs -> first_free l2 = false ->
  (length (l0 ++ option_list pred ++ b :: fs ++ l2) < fuel)%nat ->
  exists st',
    mfree fuel (usable b) st = Some st'
    /\ coalesce fuel (b_addr b) (marked (b_addr b) st) = Some (survivor pred b, st')
    /\ heap_inv st' (l0 ++ coalesced pred b fs ++ l2)
    /\ sbrk_calls st' = 0 :: sbrk_calls st
    /\ brk st' = brk st
    /\ heap_start st' = heap_start st
    /\ get_free (mem st') (b_addr b) = 1.
Proof.
  intros Hinv Hnone Hb Hbrk Hal Hfs Hl2 Hfuel.
  assert (Hm : heap_inv (marked (b_addr b) st)
                 (l0 ++ option_list pred ++ mkBlock (b_addr b) (b_size b) true :: fs ++ l2)).
  { rewrite app_assoc. apply marked_inv. rewrite <- app_assoc. exact Hinv. }
  destruct (coalesce_chain _ l0 pred _ fs l2 fuel Hm Hnone eq_refl Hfs Hl2)
    as (st' & Hco & Hinv' & Hc & Hbk & Hst & Hfl).
  { rewrite !length_app in *. simpl in *. rewrite !length_app in *. exact Hfuel. }
  cbn [b_addr] in Hco, Hfl.
  exists st'.
  assert (Hmk : sbrk_calls (marked (b_addr b) st) = 0 :: sbrk_calls st
                /\ brk (marked (b_addr b) st) = brk st
                /\ heap_start (marked (b_addr b) st) = heap_start st
                /\ get_free (mem (marked (b_addr b) st)) (b_addr b) = 1).
  { unfold marked. rewrite sbrk_query. simpl. fields. mem_simpl. auto. }
  destruct Hmk as (M1 & M2 & M3 & M4).
  split_and!; try congruence; auto.
  pose proof Hinv as [I1 I2 I3 I4 I5 I6 I7 I8 I9].
  assert (Hin : In b (l0 ++ option_list pred ++ b :: fs ++ l2)).
  { apply in_or_app. right. apply in_or_app. right. left. reflexivity. }
  destruct (layout_in_bounds _ _ b I4 Hin) as (B1 & B2).
  assert (Hs : heap_start st <> NULL).
  { intros E. apply I1 in E. destruct l0; [destruct pred|]; discriminate. }
  rewrite (heap_inv_base_start st _ Hinv Hs) in *.
  assert (Hflag : get_free (mem st) (b_addr b) = 0).
  { rewrite app_assoc in I9. apply repr_app in I9. destruct I9 as (_ & _ & R2 & _).
    rewrite R2, Hb. reflexivity. }
  unfold mfree. rewrite sbrk_query.
  cbn [heap_start mem].
  fold (marked (b_addr b) st).
  unfold usable in *.
  destruct (Z.eqb_spec (b_addr b + ALIGNED_METADATA_SIZE) NULL) as [E|_];
    [consts; lia|].
  destruct (Z.ltb_spec (b_addr b + ALIGNED_METADATA_SIZE) (heap_start st));
    [consts; lia|].
  destruct (Z.leb_spec (brk st) (b_addr b + ALIGNED_METADATA_SIZE)); [lia|].
  rewrite Hal. cbn [orb negb].
  replace (b_addr b + ALIGNED_METADATA_SIZE - ALIGNED_METADATA_SIZE) with (b_addr b) by lia.
  rewrite Hflag. cbn [Z.eqb negb].
  unfold marked in Hco. rewrite sbrk_query in Hco. cbn [snd] in Hco.
  unfold with_mem in *. cbn [mem head heap_start brk brk_lo brk_hi sbrk_calls] in *.
  rewrite Hco. reflexivity.
Qed.

Lemma same_chain_inv st st' l : same_chain st st' -> heap_inv st l -> heap_inv st' l.
Proof.
  intros (E1 & E2 & E3 & E4 & E5 & E6) [I1 I2 I3 I4 I5 I6 I7 I8 I9].
  assert (Hb : arena_base st' = arena_base st).
  { unfold arena_base. rewrite E3, E4. reflexivity. }
  constructor; rewrite ?Hb, ?E1, ?E2, ?E3, ?E4, ?E5, ?E6; auto.
Qed.

Lemma same_chain_ignored st st' ptr :
  same_chain st st' -> ignored st ptr -> ignored st' ptr.
Proof.
  intros (E1 & E2 & E3 & E4 & _). unfold ignored. rewrite E1, E3, E4. auto.
Qed.

Lemma mfree_ignored st ptr fuel :
  ignored st ptr ->
  exists st', mfree fuel ptr st = Some st' /\ same_chain st st'.
Proof.
  intros Hig. unfold mfree. rewrite sbrk_query. cbn [heap_start mem].
  assert (Hrefl : same_chain st st) by (repeat split).
  assert (Hq : same_chain st
                 (mkHeap (mem st) (head st) (heap_start st) (brk st) (brk_lo st)
                    (brk_hi st) (0 :: sbrk_calls st))) by (repeat split).
  destruct (Z.eqb_spec ptr NULL) as [E|E]; [eauto|].
  destruct (Z.ltb_spec ptr (heap_start st)); [simpl; eauto|].
  destruct (Z.leb_spec (brk st) ptr); [simpl; eauto|].
  destruct (is_aligned ptr) eqn:Hal; [|simpl; eauto].
  destruct (Z.eqb_spec (get_free (mem st) (ptr - ALIGNED_METADATA_SIZE)) 0) as [Hf|Hf];
    [|simpl; eauto].
  exfalso. destruct Hig as [H1|[H1|[H1|[H1|H1]]]]; try lia; congruence.
Qed.

(** Either [mfree] ignores a pointer or all its checks pass. *)
Lemma ignored_dec st ptr :
  ignored st ptr
  \/ (ptr <> NULL /\ heap_start st <= ptr < brk st /\ is_aligned ptr = true
      /\ get_free (mem st) (ptr - ALIGNED_METADATA_SIZE) = 0).
Proof.
  unfold ignored.
  destruct (Z.eq_dec ptr NULL); [auto|].
  destruct (Z_lt_dec ptr (heap_start st)); [auto|].
  destruct (Z_le_dec (brk st) ptr); [auto|].
  destruct (is_aligned ptr) eqn:Hal; [|auto 10].
  destruct (Z.eq_dec (get_free (mem st) (ptr - ALIGNED_METADATA_SIZE)) 0); [|auto 10].
  right. repeat split; auto; lia.
Qed.

(** ** Minimum block size *)

Lemma align_min size :
  1 <= size -> size + 15 <= SIZE_MAX -> ALIGNMENT <= align size.
Proof.
  intros H1 H2. pose proof (align_bounds size ltac:(lia) H2) as Hb.
  pose proof (align_mod size) as Hm. unfold ALIGNMENT in *.
  Z.div_mod_to_equations. lia.
Qed.

Lemma absorbed_ge fs : forall sz,
  Forall (fun f => 0 <= b_size f) fs -> sz <= absorbed sz fs.
Proof.
  induction fs as [|f fs IH]; intros sz Hfs; [simpl; lia|].
  inversion Hfs; subst. cbn [absorbed fold_left].
  specialize (IH (sz + footprint f) ltac:(assumption)).
  unfold absorbed in IH. consts. lia.
Qed.

Lemma split_blocks_min_sized b s :
  ALIGNMENT <= b_size b -> ALIGNMENT <= s -> min_sized (split_blocks b s).
Proof.
  intros Hb Hs. unfold split_blocks, min_sized.
  destruct (Z.ltb_spec (b_size b) (s + MIN_BLOCK_SIZE)).
  - repeat constructor. exact Hb.
  - repeat constructor; consts; lia.
Qed.

Lemma coalesced_min_sized pred b fs :
  min_sized (option_list pred) -> ALIGNMENT <= b_size b -> min_sized fs ->
  min_sized (coalesced pred b fs).
Proof.
  intros Hp Hb Hfs.
  assert (Hge : b_size b <= absorbed (b_size b) fs).
  { apply absorbed_ge. unfold min_sized in Hfs.
    eapply Forall_impl; [exact Hfs|]. intros f Hf. unfold ALIGNMENT in *. simpl in *. lia. }
  unfold coalesced, min_sized in *.
  destruct pred as [q|]; simpl in Hp.
  - inversion Hp; subst.
    destruct (b_free q); repeat constructor; consts; lia.
  - repeat constructor; consts; lia.
Qed.

(** Releasing the pointer of any block of the chain: the heap stays
    well-formed, and afterwards the pointer is one [mfree] ignores. *)
Lemma mfree_block st l b fuel :
  heap_inv st l -> In b l -> (length l < fuel)%nat ->
  exists st' l',
    mfree fuel (usable b) st = Some st'
    /\ heap_inv st' l'
    /\ (no_adjacent_free l -> no_adjacent_free l')
    /\ (min_sized l -> min_sized l')
    /\ ignored st' (usable b).
Proof.
  intros Hinv Hin Hfuel.
  destruct (ignored_dec st (usable b)) as [Hig|(Hnz & Hrange & Hal & Hflag)].
  - destruct (mfree_ignored st _ fuel Hig) as (st' & Hm & Hsame).
    exists st', l. split_and!; auto.
    + apply (same_chain_inv st); auto.
    + apply (same_chain_ignored st); auto.
  - destruct (chain_around l b Hin) as (l0 & pred & fs & l2 & -> & Hnone & Hfs & Hl2).
    assert (Hb : b_free b = false).
    { destruct Hinv as [_ _ _ _ _ _ _ _ I9].
      rewrite app_assoc in I9. apply repr_app in I9. destruct I9 as (_ & _ & R2 & _).
      unfold usable in Hflag.
      replace (b_addr b + ALIGNED_METADATA_SIZE - ALIGNED_METADATA_SIZE)
        with (b_addr b) in Hflag by lia.
      rewrite R2 in Hflag. destruct (b_free b); [discriminate | reflexivity]. }
    destruct (mfree_chain st l0 pred b fs l2 fuel)
      as (st' & Hm & _ & Hinv' & _ & _ & _ & Hfl); auto; try lia.
    exists st', (l0 ++ coalesced pred b fs ++ l2). split_and!; auto.
    + apply coalesced_no_adjacent_free; auto.
    + unfold min_sized. rewrite !Forall_app, !Forall_cons, Forall_app.
      intros (H0 & Hp & Hb' & Hfs' & H2). split_and!; auto.
      apply coalesced_min_sized; auto.
    + unfold ignored. do 4 right. unfold usable.
      replace (b_addr b + ALIGNED_METADATA_SIZE - ALIGNED_METADATA_SIZE)
        with (b_addr b) by lia.
      rewrite Hfl. discriminate.
Qed.

(** One call of [mallocate] with a representable size: it returns, the
    heap stays well-formed, and a non-null result is the pointer of a block
    in use that is large enough. *)
Lemma mallocate_chain st l size fuel :
  heap_inv st l -> representable size -> (length l < fuel)%nat ->
  exists p st' l',
    mallocate fuel size st = Some (p, st')
    /\ heap_inv st' l'
    /\ (no_adjacent_free l -> no_adjacent_free l')
    /\ (1 <= size <= SIZE_MAX - 15 -> min_sized l -> min_sized l')
    /\ (p = NULL
        \/ exists b, In b l' /\ p = usable b /\ b_free b = false
                     /\ align size <= b_size b).
Proof.
  intros Hinv Hrep Hfuel.
  assert (Hmin : 1 <= size <= SIZE_MAX - 15 -> ALIGNMENT <= align size).
  { intros H1. apply align_min; lia. }
  destruct (first_fit_cases (align size) l) as [Hno|(l1 & b & l2 & -> & Hno & Hfit)].
  - destruct (mallocate_grow_chain st l size fuel Hinv Hrep Hno Hfuel)
      as (p & st' & Hm & _ & Hres).
    destruct (fst (sbrk _ st) =? SBRK_FAILED).
    + destruct Hres as (Hp & _ & _ & _ & Hinv').
      exists p, st', l. split_and!; auto.
    + destruct Hres as (Hp & _ & Hinv').
      exists p, st', (l ++ [grown st size]). split_and!; auto.
      * intros Hn. apply no_adjacent_free_app. simpl.
        rewrite andb_false_r. auto.
      * intros H1 Hl. apply Forall_app. split; [exact Hl|].
        repeat constructor. simpl. auto.
      * right. exists (grown st size). split_and!; auto.
        -- apply in_or_app. right. left. reflexivity.
        -- simpl. lia.
  - destruct (mallocate_fit_chain st l1 b l2 size fuel Hinv Hno Hfit)
      as (st' & Hm & Hinv' & _).
    { rewrite length_app in Hfuel. lia. }
    unfold fits in Hfit. apply andb_prop in Hfit. destruct Hfit as (Hbf & Hbs).
    apply Z.leb_le in Hbs.
    exists (usable b), st', (l1 ++ split_blocks b (align size) ++ l2).
    split_and!; auto.
    + apply split_blocks_no_adjacent_free. exact Hbf.
    + unfold min_sized. rewrite !Forall_app, Forall_cons.
      intros H1 (Hl1 & Hb' & Hl2). split_and!; auto.
      apply split_blocks_min_sized; auto.
    + right. unfold split_blocks.
      destruct (b_size b <? align size + MIN_BLOCK_SIZE).
      * exists (mkBlock (b_addr b) (b_size b) false). split_and!; auto.
        apply in_or_app. right. left. reflexivity.
      * exists (mkBlock (b_addr b) (align size) false). split_and!; auto.
        -- apply in_or_app. right. left. reflexivity.
        -- simpl. lia.
Qed.

(** ** Heaps built from a chain *)

Lemma write_chain_repr l : forall a m, layout a l -> repr (write_chain l m) l NULL.
Proof.
  induction l as [|b l IH]; intros a m Hl; simpl; [exact I|].
  simpl in Hl. destruct Hl as (Hb & Hs & _ & Hl).
  fields. consts. mem_simpl. split_and!; auto.
  repeat (apply (repr_store _ _ _ _ _ _ Hl); [lia|]).
  apply (IH _ m Hl).
Qed.

Lemma heap_of_inv base hi l :
  0 < base -> layout base l -> chain_end base l <= hi -> hi <= INTPTR_MAX ->
  heap_inv (heap_of base hi l) l.
Proof.
  intros Hb Hl He Hhi.
  assert (Ha : arena_base (heap_of base hi l) = base).
  { unfold arena_base, heap_of. simpl.
    destruct (Z.eqb_spec base NULL); [unfold NULL in *; lia | reflexivity]. }
  constructor; rewrite ?Ha; simpl; auto.
  - intros E. unfold NULL in *. lia.
  - apply layout_le. exact Hl.
  - apply (write_chain_repr l base). exact Hl.
Qed.

Lemma fresh_inv b hi : 0 < b -> b <= hi -> hi <= INTPTR_MAX -> heap_inv (fresh b hi) [].
Proof.
  intros H0 H1 H2.
  assert (Ha : arena_base (fresh b hi) = b) by reflexivity.
  constructor; rewrite ?Ha; simpl; auto; lia.
Qed.

Lemma demo_inv : heap_inv demo demo_chain.
Proof.
  apply heap_of_inv; [lia | | vm_compute; discriminate | vm_compute; discriminate].
  simpl. repeat split; vm_compute; congruence.
Qed.

Lemma run_inv : heap_inv run_heap run_chain.
Proof.
  apply heap_of_inv; [lia | | vm_compute; discriminate | vm_compute; discriminate].
  simpl. repeat split; vm_compute; congruence.
Qed.

(** ** Fuel

    Fuel only bounds the loops: a result obtained with some fuel is the
    result with any larger amount. *)

Lemma scan_chain_mono fuel : forall fuel' m s curr last r,
  (fuel <= fuel')%nat ->
  scan_chain fuel m s curr last = Some r ->
  scan_chain fuel' m s curr last = Some r.
Proof.
  induction fuel as [|fuel IH]; intros fuel' m s curr last r Hle H; [discriminate|].
  destruct fuel' as [|fuel']; [lia|]. simpl in *.
  destruct (curr =? NULL); [exact H|].
  destruct (negb (get_free m curr =? 0) && (s <=? get_size m curr)); [exact H|].
  apply IH; [lia | exact H].
Qed.

Lemma absorb_next_mono fuel : forall fuel' block m r,
  (fuel <= fuel')%nat ->
  absorb_next fuel block m = Some r -> absorb_next fuel' block m = Some r.
Proof.
  induction fuel as [|fuel IH]; intros fuel' block m r Hle H; [discriminate|].
  destruct fuel' as [|fuel']; [lia|]. simpl in *.
  destruct (negb (get_next m block =? NULL) && _); [|exact H].
  apply IH; [lia | exact H].
Qed.

Lemma find_prev_mono fuel : forall fuel' m block curr prev r,
  (fuel <= fuel')%nat ->
  find_prev fuel m block curr prev = Some r ->
  find_prev fuel' m block curr prev = Some r.
Proof.
  induction fuel as [|fuel IH]; intros fuel' m block curr prev r Hle H; [discriminate|].
  destruct fuel' as [|fuel']; [lia|]. simpl in *.
  destruct (negb (curr =? NULL) && negb (curr =? block)); [|exact H].
  apply IH; [lia | exact H].
Qed.

Lemma coalesce_mono fuel fuel' block st r :
  (fuel <= fuel')%nat ->
  coalesce fuel block st = Some r -> coalesce fuel' block st = Some r.
Proof.
  intros Hle. unfold coalesce.
  destruct (absorb_next fuel block (mem st)) as [m|] eqn:Ha; [|discriminate].
  rewrite (absorb_next_mono fuel fuel' _ _ _ Hle Ha).
  destruct (find_prev fuel m block (head st) NULL) as [prev|] eqn:Hf; [|discriminate].
  rewrite (find_prev_mono fuel fuel' _ _ _ _ _ Hle Hf). auto.
Qed.

Lemma mallocate_mono fuel fuel' size st r :
  (fuel <= fuel')%nat ->
  mallocate fuel size st = Some r -> mallocate fuel' size st = Some r.
Proof.
  intros Hle. unfold mallocate.
  destruct (head (init_heap_start st) =? NULL); [auto|].
  destruct (scan_chain fuel _ _ _ _) as [sc|] eqn:Hs; [|discriminate].
  rewrite (scan_chain_mono fuel fuel' _ _ _ _ _ Hle Hs). auto.
Qed.

Lemma mfree_mono fuel fuel' ptr st r :
  (fuel <= fuel')%nat ->
  mfree fuel ptr st = Some r -> mfree fuel' ptr st = Some r.
Proof.
  intros Hle. unfold mfree.
  destruct (ptr =? NULL); [auto|].
  destruct (sbrk 0 st) as (heap_end, st1).
  destruct ((ptr <? heap_start st1) || (heap_end <=? ptr)); [auto|].
  destruct (negb (is_aligned ptr)); [auto|].
  destruct (negb (get_free (mem st1) (ptr - ALIGNED_METADATA_SIZE) =? 0)); [auto|].
  destruct (coalesce fuel _ _) as [res|] eqn:Hc; [|discriminate].
  rewrite (coalesce_mono fuel fuel' _ _ _ Hle Hc). auto.
Qed.

(** ** Introspection *)

Lemma print_blocks_from_spec l : forall a m fuel,
  0 < a -> layout a l -> repr m l NULL -> (length l < fuel)%nat ->
  print_blocks_from fuel m (first_addr l NULL) = Some (rows_of l).
Proof.
  induction l as [|b l IH]; intros a m fuel Ha Hl Hr Hfuel.
  - destruct fuel; [simpl in Hfuel; lia | reflexivity].
  - destruct fuel; [simpl in Hfuel; lia|].
    simpl in Hl, Hr, Hfuel. destruct Hl as (Hb & Hs & _ & Hl).
    destruct Hr as (R1 & R2 & R3 & Hr).
    cbn [print_blocks_from first_addr rows_of].
    destruct (Z.eqb_spec (b_addr b) NULL) as [E|_]; [unfold NULL in *; lia|].
    rewrite R3, (IH (a + footprint b)), R1, R2, b2z_test; auto.
    + consts. lia.
    + lia.
Qed.

(** [print_blocks] shows the chain the heap holds. *)
Lemma print_blocks_spec st l fuel :
  heap_inv st l -> (length l < fuel)%nat ->
  print_blocks fuel st = Some (rows_of l).
Proof.
  intros [I1 I2 I3 I4 I5 I6 I7 I8 I9] Hfuel. unfold print_blocks. rewrite I3.
  apply (print_blocks_from_spec l (arena_base st)); auto.
Qed.

(** ** Invariants of the reachable states *)

Section Reachable.

Variable admissible : Z -> Prop.
Hypothesis admissible_representable : forall n, admissible n -> representable n.

(** Every reachable state is a well-formed heap without two free
    neighbours. *)
Lemma reachable_inv st :
  reachable admissible st -> exists l, heap_inv st l /\ no_adjacent_free l.
Proof.
  induction 1 as [b hi H0 H1 H2
                 | st fuel size p st' _ (l & Hinv & Hn) Hadm Hm
                 | st fuel ptr st' _ (l & Hinv & Hn) Hptr Hm].
  - exists []. split; [apply fresh_inv; auto | exact I].
  - destruct (mallocate_chain st l size (fuel + S (length l)) Hinv)
      as (p1 & st1 & l1 & Hm1 & Hinv1 & Hn1 & _); auto; [lia|].
    rewrite (mallocate_mono fuel (fuel + S (length l)) _ _ _ ltac:(lia) Hm) in Hm1.
    injection Hm1 as <- <-. exists l1. auto.
  - destruct (Hptr l Hinv) as [Hig|(b & Hin & ->)].
    + destruct (mfree_ignored st ptr fuel Hig) as (st1 & Hm1 & Hsame).
      rewrite Hm in Hm1. injection Hm1 as <-.
      exists l. split; [apply (same_chain_inv st); auto | exact Hn].
    + destruct (mfree_block st l b (fuel + S (length l)) Hinv Hin)
        as (st1 & l1 & Hm1 & Hinv1 & Hn1 & _); [lia|].
      rewrite (mfree_mono fuel (fuel + S (length l)) _ _ _ ltac:(lia) Hm) in Hm1.
      injection Hm1 as <-. exists l1. auto.
Qed.

(** When every request is for at least one byte and [align] does not wrap
    around on it, every block of a reachable state has at least one
    alignment unit of usable space. *)
Lemma reachable_min_sized st :
  (forall n, admissible n -> 1 <= n <= SIZE_MAX - 15) ->
  reachable admissible st -> exists l, heap_inv st l /\ min_sized l.
Proof.
  intros Hpos.
  induction 1 as [b hi H0 H1 H2
                 | st fuel size p st' _ (l & Hinv & Hn) Hadm Hm
                 | st fuel ptr st' _ (l & Hinv & Hn) Hptr Hm].
  - exists []. split; [apply fresh_inv; auto | constructor].
  - destruct (mallocate_chain st l size (fuel + S (length l)) Hinv)
      as (p1 & st1 & l1 & Hm1 & Hinv1 & _ & Hn1 & _); auto; [lia|].
    rewrite (mallocate_mono fuel (fuel + S (length l)) _ _ _ ltac:(lia) Hm) in Hm1.
    injection Hm1 as <- <-. exists l1. auto.
  - destruct (Hptr l Hinv) as [Hig|(b & Hin & ->)].
    + destruct (mfree_ignored st ptr fuel Hig) as (st1 & Hm1 & Hsame).
      rewrite Hm in Hm1. injection Hm1 as <-.
      exists l. split; [apply (same_chain_inv st); auto | exact Hn].
    + destruct (mfree_block st l b (fuel + S (length l)) Hinv Hin)
        as (st1 & l1 & Hm1 & Hinv1 & _ & Hn1 & _); [lia|].
      rewrite (mfree_mono fuel (fuel + S (length l)) _ _ _ ltac:(lia) Hm) in Hm1.
      injection Hm1 as <-. exists l1. auto.
Qed.

End Reachable.

(** ** The test programs of the repository, run on the model *)

(** [tests]: allocate 64, 32 and 48 bytes; free the second, then the
    third (they merge); allocate 16 (the merged block is split); free it
    (it merges back); free the first (one free block remains). *)
Example test_allocator :
  ('(a, st) ← mallocate 9 64 (fresh 4096 8192);
   '(b, st) ← mallocate 9 32 st;
   '(c, st) ← mallocate 9 48 st;
   st1 ← mfree 9 b st;
   st2 ← mfree 9 c st1;
   '(d, st3) ← mallocate 9 16 st2;
   st4 ← mfree 9 d st3;
   st5 ← mfree 9 a st4;
   r ← print_blocks 9 st; r1 ← print_blocks 9 st1; r2 ← print_blocks 9 st2;
   r3 ← print_blocks 9 st3; r4 ← print_blocks 9 st4; r5 ← print_blocks 9 st5;
   Some ([a; b; c; d], [r; r1; r2; r3; r4; r5]))
  = Some ([4128; 4224; 4288; 4224],
          [ [(4096, 64, false, 4192); (4192, 32, false, 4256); (4256, 48, false, 0)];
            [(4096, 64, false, 4192); (4192, 32, true, 4256); (4256, 48, false, 0)];
            [(4096, 64, false, 4192); (4192, 112, true, 0)];
            [(4096, 64, false, 4192); (4192, 16, false, 4240); (4240, 64, true, 0)];
            [(4096, 64, false, 4192); (4192, 112, true, 0)];
            [(4096, 208, true, 0)] ]).
Proof. vm_compute. reflexivity. Qed.

(** [test_split]: a block of 128 bytes, freed, then reused for 16 bytes:
    it is split into 16 bytes in use and a free remainder of 80. *)
Example test_split :
  ('(big, st) ← mallocate 9 128 (fresh 4096 8192);
   st ← mfree 9 big st;
   '(small, st) ← mallocate 9 16 st;
   r ← print_blocks 9 st;
   Some (big, small, r))
  = Some (4128, 4128, [(4096, 16, false, 4144); (4144, 80, true, 0)]).
Proof. vm_compute. reflexivity. Qed.

(** [test_coalesce]: three blocks of 32 bytes freed in the order second,
    third, first end as one free block of 32 * 3 + 32 * 2 bytes. *)
Example test_coalesce :
  ('(a, st) ← mallocate 9 32 (fresh 4096 8192);
   '(b, st) ← mallocate 9 32 st;
   '(c, st) ← mallocate 9 32 st;
   st ← mfree 9 b st;
   st ← mfree 9 c st;
   st ← mfree 9 a st;
   print_blocks 9 st)
  = Some [(4096, 160, true, 0)].
Proof. vm_compute. reflexivity. Qed.

(** A block of size zero at the end of the arena is never released: its
    pointer equals the break, so [mfree] ignores it. *)
Example mfree_zero_block_ignored :
  ('(p, st) ← mallocate 9 0 (fresh 4096 8192);
   st' ← mfree 9 p st;
   r ← print_blocks 9 st';
   Some (p, brk st, r))
  = Some (4128, 4128, [(4096, 0, false, 0)]).
Proof. vm_compute. reflexivity. Qed.

(** ** Requests of zero bytes and capacity *)

(** [mallocate] only looks at its argument through [align]. *)
Lemma mallocate_align_only fuel size size' st :
  align size = align size' -> mallocate fuel size st = mallocate fuel size' st.
Proof. intros E. unfold mallocate. rewrite E. reflexivity. Qed.

(** A request of zero bytes on a heap without blocks: [sbrk] is asked for a
    header only and the block written has size zero. *)
Lemma mallocate_zero_fresh :
  exists st',
    mallocate 1 0 (fresh 4096 8192) = Some (4128, st')
    /\ heap_inv st' [mkBlock 4096 0 false]
    /\ sbrk_calls st' = [32; 0]
    /\ brk st' = 4128.
Proof.
  assert (Hrep : representable 0) by (vm_compute; discriminate).
  destruct (mallocate_grow_chain (fresh 4096 8192) [] 0 1) as (p & st' & Hm & Hc & Hres).
  - apply fresh_inv; [lia | lia | vm_compute; discriminate].
  - exact Hrep.
  - constructor.
  - simpl. lia.
  - cbv zeta in Hres.
    assert (E : (fst (sbrk (ALIGNED_METADATA_SIZE + align 0) (fresh 4096 8192))
                 =? SBRK_FAILED) = false) by (vm_compute; reflexivity).
    rewrite E in Hres. destruct Hres as (-> & Hb & Hinv).
    exists st'. split_and!; auto.
Qed.

(** Capacity for the sizes the arithmetic does not overflow on: a successful
    [mallocate] returns the pointer of a block in use whose usable size is
    at least the size asked for. *)
Lemma mallocate_capacity st l size fuel :
  heap_inv st l -> representable size -> 0 <= size <= SIZE_MAX - 15 ->
  (length l < fuel)%nat ->
  exists p st' l',
    mallocate fuel size st = Some (p, st')
    /\ heap_inv st' l'
    /\ (p = NULL
        \/ exists b, In b l' /\ p = usable b /\ b_free b = false
                     /\ size <= b_size b).
Proof.
  intros Hinv Hrep Hsize Hfuel.
  destruct (mallocate_chain st l size fuel Hinv Hrep Hfuel)
    as (p & st' & l' & Hm & Hinv' & _ & _ & Hp).
  exists p, st', l'. split_and!; auto.
  destruct Hp as [Hp|(b & Hin & Hu & Hf & Hs)]; [auto|].
  right. exists b. split_and!; auto.
  pose proof (align_bounds size ltac:(lia) ltac:(lia)). lia.
Qed.

(** * The specification, claim by claim *)

(** C1: first fit.  In a well-formed heap whose chain holds a free block
    of at least the aligned size, [mallocate] returns the pointer of the
    first such block in chain order, after [split] has worked on it; it
    does not call [sbrk], the break does not move, and the chain covers the
    same addresses as before: nothing is appended. *)
Theorem mallocate_first_fit st l1 b l2 size fuel :
  heap_inv st (l1 ++ b :: l2) ->
  Forall (fun c => fits (align size) c = false) l1 ->
  fits (align size) b = true ->
  (length l1 < fuel)%nat ->
  exists st',
    mallocate fuel size st = Some (usable b, st')
    /\ heap_inv st' (l1 ++ split_blocks b (align size) ++ l2)
    /\ sbrk_calls st' = sbrk_calls st
    /\ brk st' = brk st
    /\ chain_end (arena_base st') (l1 ++ split_blocks b (align size) ++ l2)
       = chain_end (arena_base st) (l1 ++ b :: l2).
Proof.
  intros Hinv Hno Hfit Hfuel.
  destruct (mallocate_fit_chain st l1 b l2 size fuel Hinv Hno Hfit Hfuel)
    as (st' & Hm & Hinv' & Hc & Hb).
  exists st'. split_and!; auto.
  destruct Hinv as [_ _ _ _ I5 _ _ _ _]. destruct Hinv' as [_ _ _ _ J5 _ _ _ _].
  congruence.
Qed.

Lemma mallocate_first_fit_witness :
  exists st',
    mallocate 4 20 demo = Some (4336, st')
    /\ heap_inv st'
         [mkBlock 4096 64 false; mkBlock 4192 16 true; mkBlock 4240 32 false;
          mkBlock 4304 32 false; mkBlock 4368 48 true]
    /\ sbrk_calls st' = []
    /\ brk st' = 4448
    /\ chain_end (arena_base st')
         [mkBlock 4096 64 false; mkBlock 4192 16 true; mkBlock 4240 32 false;
          mkBlock 4304 32 false; mkBlock 4368 48 true]
       = 4448.
Proof.
  apply (mallocate_first_fit demo
           [mkBlock 4096 64 false; mkBlock 4192 16 true; mkBlock 4240 32 false]
           (mkBlock 4304 112 true) [] 20 4).
  - exact demo_inv.
  - repeat constructor.
  - reflexivity.
  - simpl. lia.
Defined.

(** C2: minimum block size, at the input where the code departs from it:
    [mallocate 0] on a heap without blocks succeeds and leaves a chain
    whose only block has usable size 0, below the alignment unit. *)
Theorem mallocate_zero_block :
  exists st',
    mallocate 1 0 (fresh 4096 8192) = Some (4128, st')
    /\ heap_inv st' [mkBlock 4096 0 false]
    /\ get_size (mem st') 4096 = 0
    /\ ~ (ALIGNMENT <= get_size (mem st') 4096).
Proof.
  destruct mallocate_zero_fresh as (st' & Hm & Hinv & _).
  exists st'. split_and!; auto.
  - destruct Hinv as [_ _ _ _ _ _ _ _ I9]. simpl in I9. tauto.
  - destruct Hinv as [_ _ _ _ _ _ _ _ I9]. simpl in I9.
    destruct I9 as (-> & _). unfold ALIGNMENT. lia.
Qed.



(** C4: release and coalescing.  Let [b] be a block in use whose pointer
    passes the checks of [mfree], [fs] the run of free blocks right behind
    it (ending at a block in use or at the end of the chain) and [pred] its
    predecessor.  Then [mfree] returns, and in the state it leaves the
    chain is the old one with [pred], [b] and [fs] replaced by what
    [coalesced] describes: [b] has absorbed every block of [fs], its size
    growing by header plus size for each, and has then been merged into
    [pred] if [pred] is free.  [coalesce] returns the predecessor in that
    case and the block itself otherwise.  When no two free blocks were
    neighbours before the predecessor, the surviving free block has no
    free neighbour: the whole run is that one block. *)
Theorem mfree_coalesces st l0 pred b fs l2 fuel :
  heap_inv st (l0 ++ option_list pred ++ b :: fs ++ l2) ->
  (pred = None -> l0 = []) ->
  b_free b = false -> usable b < brk st -> is_aligned (usable b) = true ->
  Forall (fun f => b_free f = true) fs -> first_free l2 = false ->
  (length (l0 ++ option_list pred ++ b :: fs ++ l2) < fuel)%nat ->
  exists st',
    mfree fuel (usable b) st = Some st'
    /\ coalesce fuel (b_addr b) (marked (b_addr b) st) = Some (survivor pred b, st')
    /\ heap_inv st' (l0 ++ coalesced pred b fs ++ l2)
    /\ (no_adjacent_free (l0 ++ option_list pred) ->
        free_run_of_one (l0 ++ coalesced pred b fs ++ l2) (survivor pred b)).
Proof.
  intros Hinv Hnone Hb Hbrk Hal Hfs Hl2 Hfuel.
  destruct (mfree_chain st l0 pred b fs l2 fuel Hinv Hnone Hb Hbrk Hal Hfs Hl2 Hfuel)
    as (st' & Hm & Hco & Hinv' & _).
  exists st'. split_and!; auto.
  intros Hn. apply coalesced_free_run; auto.
Qed.

Lemma mfree_coalesces_witness :
  exists st',
    mfree 7 4240 run_heap = Some st'
    /\ coalesce 7 4208 (marked 4208 run_heap) = Some (4144, st')
    /\ heap_inv st'
         [mkBlock 4096 16 false; mkBlock 4144 224 true; mkBlock 4400 64 false]
    /\ (no_adjacent_free [mkBlock 4096 16 false; mkBlock 4144 32 true] ->
        free_run_of_one
          [mkBlock 4096 16 false; mkBlock 4144 224 true; mkBlock 4400 64 false]
          4144).
Proof.
  apply (mfree_coalesces run_heap [mkBlock 4096 16 false]
           (Some (mkBlock 4144 32 true)) (mkBlock 4208 48 false)
           [mkBlock 4288 16 true; mkBlock 4336 32 true]
           [mkBlock 4400 64 false] 7).
  - exact run_inv.
  - discriminate.
  - reflexivity.
  - vm_compute. reflexivity.
  - reflexivity.
  - repeat constructor.
  - reflexivity.
  - simpl. lia.
Defined.

(** C5: no two neighbours free, at the input where the code departs
    from it.  A process calls [mallocate (SIZE_MAX - 16)], [mallocate 16]
    and [mallocate 16], then releases the three pointers it was given, the
    first, the third and the second.  Header plus aligned size of the
    first request is [2^64 + 16] and wraps to 16, so the second block is
    placed 16 bytes behind the first, over its [next] field.  Every call
    returns, and after the last one the chain consists of two blocks,
    neighbours, both free. *)
Theorem adjacent_free_after_wrap :
  exists st1 st2 st3 st4 st5 st6,
    mallocate 1 (SIZE_MAX - 16) (fresh 4096 8192) = Some (4128, st1)
    /\ mallocate 2 16 st1 = Some (4144, st2)
    /\ mallocate 3 16 st2 = Some (4192, st3)
    /\ mfree 4 4128 st3 = Some st4
    /\ mfree 4 4192 st4 = Some st5
    /\ mfree 4 4144 st5 = Some st6
    /\ head st6 = 4096
    /\ repr (mem st6)
         [mkBlock 4096 (SIZE_MAX - 15) true; mkBlock 4160 4208 true] NULL
    /\ print_blocks 3 st6
       = Some [(4096, SIZE_MAX - 15, true, 4160); (4160, 4208, true, NULL)]
    /\ ~ no_adjacent_free
          [mkBlock 4096 (SIZE_MAX - 15) true; mkBlock 4160 4208 true].
Proof.
  do 6 eexists.
  split; [vm_compute; reflexivity|].
  split; [vm_compute; reflexivity|].
  split; [vm_compute; reflexivity|].
  split; [vm_compute; reflexivity|].
  split; [vm_compute; reflexivity|].
  split; [vm_compute; reflexivity|].
  split; [reflexivity|].
  split; [vm_compute; repeat split|].
  split; [vm_compute; reflexivity|].
  intros H. simpl in H. destruct H as [H _]. discriminate H.
Qed.

(** C6: pointers [mfree] ignores.  When the pointer is null, lies below
    [heap_start] or at or above the current break, is not a multiple of
    16, designates a header whose [free] flag is set, or is the pointer of
    a block that has just been released, [mfree] returns and memory (so
    every size, flag and link), the head of the chain and the arena are
    unchanged. *)
Theorem mfree_noop st ptr fuel :
  ignored st ptr
  \/ (exists st0 l b fuel0,
        heap_inv st0 l /\ In b l
        /\ ptr = usable b /\ mfree fuel0 ptr st0 = Some st) ->
  exists st',
    mfree fuel ptr st = Some st'
    /\ mem st' = mem st /\ head st' = head st
    /\ heap_start st' = heap_start st /\ brk st' = brk st.
Proof.
  intros H.
  assert (Hig : ignored st ptr).
  { destruct H as [H|(st0 & l & b & fuel0 & Hinv & Hin & -> & Hm)]; [exact H|].
    destruct (mfree_block st0 l b (fuel0 + S (length l)) Hinv Hin ltac:(lia))
      as (st1 & l' & Hm1 & _ & _ & _ & Hig).
    rewrite (mfree_mono fuel0 (fuel0 + S (length l)) _ _ _ ltac:(lia) Hm) in Hm1.
    congruence. }
  destruct (mfree_ignored st ptr fuel Hig) as (st' & Hm & E1 & E2 & E3 & E4 & _).
  exists st'. auto.
Qed.

Lemma mfree_noop_witness :
  exists st',
    mfree 7 4240 run_freed = Some st'
    /\ mem st' = mem run_freed /\ head st' = head run_freed
    /\ heap_start st' = heap_start run_freed /\ brk st' = brk run_freed.
Proof.
  apply (mfree_noop run_freed 4240 7).
  right. exists run_heap, run_chain, (mkBlock 4208 48 false), 7%nat.
  split; [exact run_inv|].
  split; [simpl; auto|].
  split; [reflexivity|].
  vm_compute. reflexivity.
Defined.

(** C7: growth, at the input where the code departs from it.  None of
    the four blocks of [demo] fits a request of [SIZE_MAX - 16] bytes,
    whose aligned size is [2^64 - 16]; header plus aligned size is
    [2^64 + 16], which wraps to 16.  [mallocate] asks [sbrk] for 16 bytes,
    [sbrk] succeeds, and the block appended records the aligned size
    although the break has moved by 16 bytes only: the pointer returned
    lies beyond the break. *)
Theorem mallocate_request_wraps :
  heap_inv demo demo_chain
  /\ Forall (fun c => fits (align (SIZE_MAX - 16)) c = false) demo_chain
  /\ ALIGNED_METADATA_SIZE + align (SIZE_MAX - 16) = SIZE_MOD + 16
  /\ exists st',
       mallocate 5 (SIZE_MAX - 16) demo = Some (4480, st')
       /\ sbrk_calls st' = [16]
       /\ brk demo = 4448 /\ brk st' = 4464
       /\ head st' = 4096
       /\ repr (mem st')
            (demo_chain ++ [mkBlock 4448 (SIZE_MAX - 15) false]) NULL
       /\ print_blocks 6 st'
          = Some (rows_of (demo_chain ++ [mkBlock 4448 (SIZE_MAX - 15) false])).
Proof.
  split; [exact demo_inv|].
  split; [repeat constructor|].
  split; [reflexivity|].
  eexists.
  split; [vm_compute; reflexivity|].
  split; [reflexivity|].
  split; [reflexivity|].
  split; [reflexivity|].
  split; [reflexivity|].
  split; [vm_compute; repeat split|].
  vm_compute. reflexivity.
Qed.

(** C8: capacity, at the input where the code departs from it: a request
    of [SIZE_MAX] bytes wraps around in [align], so [mallocate] asks [sbrk]
    for a header only, succeeds, and returns the pointer of a block of
    usable size 0. *)
Theorem mallocate_size_max_block :
  align SIZE_MAX = 0
  /\ exists st',
       mallocate 1 SIZE_MAX (fresh 4096 8192) = Some (4128, st')
       /\ heap_inv st' [mkBlock 4096 0 false]
       /\ sbrk_calls st' = [32; 0]
       /\ get_size (mem st') (4128 - ALIGNED_METADATA_SIZE) < SIZE_MAX.
Proof.
  split; [reflexivity|].
  destruct mallocate_zero_fresh as (st' & Hm & Hinv & Hc & _).
  exists st'.
  split; [rewrite (mallocate_align_only 1 SIZE_MAX 0); [exact Hm | reflexivity]|].
  split; [exact Hinv|]. split; [exact Hc|].
  - destruct Hinv as [_ _ _ _ _ _ _ _ I9]. simpl in I9.
    destruct I9 as (E & _). change (4128 - ALIGNED_METADATA_SIZE) with 4096.
    rewrite E. vm_compute. reflexivity.
Qed.

(** C9: alignment.  In a well-formed heap whose arena starts at a
    multiple of 16, [mallocate] returns for every request, and a result
    other than [NULL] is a multiple of 16. *)
Theorem mallocate_aligned st l size fuel :
  heap_inv st l -> arena_base st mod ALIGNMENT = 0 ->
  (length l < fuel)%nat ->
  exists p st',
    mallocate fuel size st = Some (p, st')
    /\ (p <> NULL -> is_aligned p = true).
Proof.
  intros Hinv Hal Hfuel.
  pose proof Hinv as [I1 I2 I3 I4 I5 I6 I7 I8 I9].
  assert (Hplus : forall x, x mod ALIGNMENT = 0 ->
                    is_aligned (x + ALIGNED_METADATA_SIZE) = true).
  { intros x Hx. unfold is_aligned. apply Z.eqb_eq. consts.
    Z.div_mod_to_equations. lia. }
  destruct (first_fit_cases (align size) l) as [Hno|(l1 & b & l2 & -> & Hno & Hfit)].
  - destruct (mallocate_grow_raw st l size fuel Hinv Hno Hfuel)
      as (p & st' & Hm & _ & _ & _ & _ & Hres).
    exists p, st'. split; [exact Hm|]. intros Hp.
    destruct (fst (sbrk _ st) =? SBRK_FAILED).
    + destruct Hres as (E & _). contradiction.
    + destruct Hres as (-> & _). apply Hplus.
      rewrite <- I5. apply chain_end_aligned; auto.
  - destruct (mallocate_fit_chain st l1 b l2 size fuel Hinv Hno Hfit)
      as (st' & Hm & _).
    { rewrite length_app in Hfuel. lia. }
    exists (usable b), st'. split; [exact Hm|]. intros _.
    apply Hplus. apply (layout_aligned (arena_base st) (l1 ++ b :: l2)); auto.
    apply in_or_app. right. left. reflexivity.
Qed.

Lemma mallocate_aligned_witness :
  exists p st',
    mallocate 5 20 demo = Some (p, st')
    /\ (p <> NULL -> is_aligned p = true).
Proof.
  apply (mallocate_aligned demo demo_chain 20 5).
  - exact demo_inv.
  - reflexivity.
  - simpl. lia.
Defined.

(** C10: [mfree] trusts its pointer.  After one [mallocate 64] on a heap
    without blocks the only pointer handed out is 4128.  The arena start
    4096 and the address 4160 inside the block's usable region are
    non-null, within the arena and multiples of 16, so they pass every
    check of [mfree]; it then reads the [free] flag of a header presumed 32
    bytes before the pointer, which is 0, and sets it to 1.  For the arena
    start that header lies before the arena; for 4160 it lies in the
    usable region of the block. *)
Theorem mfree_trusts_pointer :
  exists st,
    mallocate 1 64 (fresh 4096 8192) = Some (4128, st)
    /\ heap_inv st [mkBlock 4096 64 false]
    /\ (let ptr := heap_start st in
        ptr <> 4128 /\ ptr <> NULL
        /\ heap_start st <= ptr < brk st /\ is_aligned ptr = true
        /\ ptr - ALIGNED_METADATA_SIZE < heap_start st
        /\ get_free (mem st) (ptr - ALIGNED_METADATA_SIZE) = 0
        /\ exists st',
             mfree 2 ptr st = Some st'
             /\ get_free (mem st') (ptr - ALIGNED_METADATA_SIZE) = 1)
    /\ (let ptr := 4160 in
        ptr <> 4128 /\ ptr <> NULL
        /\ heap_start st <= ptr < brk st /\ is_aligned ptr = true
        /\ usable (mkBlock 4096 64 false) <= ptr - ALIGNED_METADATA_SIZE
        /\ ptr - ALIGNED_METADATA_SIZE + sizeof_Block
           <= usable (mkBlock 4096 64 false) + 64
        /\ get_free (mem st) (ptr - ALIGNED_METADATA_SIZE) = 0
        /\ exists st',
             mfree 2 ptr st = Some st'
             /\ get_free (mem st') (ptr - ALIGNED_METADATA_SIZE) = 1).
Proof.
  assert (Hrep : representable 64) by (vm_compute; discriminate).
  destruct (mallocate_grow_chain (fresh 4096 8192) [] 64 1) as (p & st & Hm & Hc & Hres).
  - apply fresh_inv; [lia | lia | vm_compute; discriminate].
  - exact Hrep.
  - constructor.
  - simpl. lia.
  - cbv zeta in Hres.
    assert (E : (fst (sbrk (ALIGNED_METADATA_SIZE + align 64) (fresh 4096 8192))
                 =? SBRK_FAILED) = false) by (vm_compute; reflexivity).
    rewrite E in Hres. destruct Hres as (-> & Hb & Hinv).
    exists st. split; [exact Hm|]. split; [exact Hinv|].
    assert (Hst : st = mkHeap (init_block 4096 64 ∅) 4096 4096 4192 4096 8192 [96; 0]).
    { vm_compute in Hm. injection Hm as <-. vm_compute. reflexivity. }
    subst st. split.
    + cbv zeta. cbn [heap_start brk mem].
      split_and!; try (vm_compute; congruence).
      eexists. split; vm_compute; reflexivity.
    + cbv zeta. cbn [heap_start brk mem].
      split_and!; try (vm_compute; congruence).
      eexists. split; vm_compute; reflexivity.
Qed.

(** * Further properties of the allocator *)

(** ** Blocks do not overlap *)

Lemma layout_disjoint a l : forall c q,
  layout a l -> In c l -> In q l ->
  c = q
  \/ b_addr c + footprint c <= b_addr q
  \/ b_addr q + footprint q <= b_addr c.
Proof.
  revert a. induction l as [|d l IH]; intros a c q Hl Hc Hq; [destruct Hc|].
  simpl in Hl. destruct Hl as (Hd & Hs & _ & Hl).
  destruct Hc as [<-|Hc], Hq as [<-|Hq].
  - left. reflexivity.
  - right. left. destruct (layout_in_bounds _ _ q Hl Hq). lia.
  - right. right. destruct (layout_in_bounds _ _ c Hl Hc). lia.
  - apply (IH (a + footprint d)); auto.
Qed.

(** No byte of a usable region is a header byte of a block of the chain. *)
Lemma usable_not_header a l c q x :
  layout a l -> In c l -> In q l -> in_usable c x ->
  ~ (b_addr q <= x < b_addr q + ALIGNED_METADATA_SIZE).
Proof.
  intros Hl Hc Hq Hx. unfold in_usable in Hx.
  destruct (layout_in_bounds a l c Hl Hc) as (_ & _).
  assert (Hqs : 0 <= b_size q).
  { clear Hx Hc. revert a Hl. induction l as [|d l IH]; intros a Hl; [destruct Hq|].
    simpl in Hl. destruct Hq as [<-|Hq]; [tauto|]. apply (IH Hq (a + footprint d)). tauto. }
  destruct (layout_disjoint a l c q Hl Hc Hq) as [->|[H|H]]; consts; lia.
Qed.

Lemma layout_size_nonneg a l c : layout a l -> In c l -> 0 <= b_size c.
Proof.
  revert a. induction l as [|d l IH]; intros a Hl Hc; [destruct Hc|].
  simpl in Hl. destruct Hc as [<-|Hc]; [tauto|]. apply (IH (a + footprint d)); tauto.
Qed.


(** ** What the operations write *)


(** The first loop of [coalesce] writes the size and next fields of its
    block only. *)
Lemma absorb_next_frame fuel : forall block m m' x,
  absorb_next fuel block m = Some m' ->
  x <> block + OFF_SIZE -> x <> block + OFF_NEXT ->
  load m' x = load m x.
Proof.
  induction fuel as [|fuel IH]; intros block m m' x H Hs Hn; [discriminate|].
  simpl in H.
  destruct (negb (get_next m block =? NULL) && _).
  - rewrite (IH _ _ _ x H Hs Hn). fields. mem_simpl. reflexivity.
  - injection H as <-. reflexivity.
Qed.

(** [coalesce] writes the size and next fields of its block and of the
    block it returns, in any state. *)
Lemma coalesce_frame fuel block st r st' x :
  coalesce fuel block st = Some (r, st') ->
  x <> block + OFF_SIZE -> x <> block + OFF_NEXT ->
  x <> r + OFF_SIZE -> x <> r + OFF_NEXT ->
  load (mem st') x = load (mem st) x.
Proof.
  unfold coalesce. intros H Hs Hn Hrs Hrn.
  destruct (absorb_next fuel block (mem st)) as [m|] eqn:Ha; [|discriminate].
  destruct (find_prev fuel m block (head st) NULL) as [prev|]; [|discriminate].
  pose proof (absorb_next_frame fuel block (mem st) m x Ha Hs Hn) as Hf.
  destruct (negb (prev =? NULL) && negb (get_free m prev =? 0)).
  - injection H as <- <-. simpl. fields. mem_simpl. exact Hf.
  - injection H as <- <-. simpl. exact Hf.
Qed.


(** ** The chain after one call *)

(** The three outcomes of [mallocate] on a well-formed heap: failure, one
    block appended, or the first fitting block taken. *)
Lemma mallocate_cases st l size fuel :
  heap_inv st l -> representable size -> (length l < fuel)%nat ->
  exists p st' l',
    mallocate fuel size st = Some (p, st')
    /\ heap_inv st' l'
    /\ ((p = NULL /\ l' = l /\ brk st' = brk st)
        \/ (p = usable (grown st size) /\ l' = l ++ [grown st size]
            /\ Forall (fun c => fits (align size) c = false) l)
        \/ (exists l1 b l2,
              l = l1 ++ b :: l2
              /\ Forall (fun c => fits (align size) c = false) l1
              /\ fits (align size) b = true
              /\ p = usable b
              /\ l' = l1 ++ split_blocks b (align size) ++ l2
              /\ sbrk_calls st' = sbrk_calls st /\ brk st' = brk st)).
Proof.
  intros Hinv Hrep Hfuel.
  destruct (first_fit_cases (align size) l) as [Hno|(l1 & b & l2 & -> & Hno & Hfit)].
  - destruct (mallocate_grow_chain st l size fuel Hinv Hrep Hno Hfuel)
      as (p & st' & Hm & _ & Hres).
    destruct (fst (sbrk _ st) =? SBRK_FAILED).
    + destruct Hres as (Hp & _ & _ & Hb & Hinv').
      exists p, st', l. split_and!; auto.
    + destruct Hres as (Hp & _ & Hinv').
      exists p, st', (l ++ [grown st size]). split_and!; auto.
  - destruct (mallocate_fit_chain st l1 b l2 size fuel Hinv Hno Hfit)
      as (st' & Hm & Hinv' & Hc & Hb).
    { rewrite length_app in Hfuel. lia. }
    exists (usable b), st', (l1 ++ split_blocks b (align size) ++ l2).
    split_and!; auto.
    right. right. exists l1, b, l2. split_and!; auto.
Qed.

(** The two outcomes of [mfree] on the pointer of a block of the chain:
    ignored, or the block released and coalesced. *)
Lemma mfree_cases st l b fuel :
  heap_inv st l -> In b l -> (length l < fuel)%nat ->
  exists st' l',
    mfree fuel (usable b) st = Some st'
    /\ heap_inv st' l'
    /\ ((ignored st (usable b) /\ same_chain st st' /\ l' = l)
        \/ (b_free b = false
            /\ exists l0 pred fs l2,
                 l = l0 ++ option_list pred ++ b :: fs ++ l2
                 /\ (pred = None -> l0 = [])
                 /\ Forall (fun f => b_free f = true) fs
                 /\ first_free l2 = false
                 /\ l' = l0 ++ coalesced pred b fs ++ l2
                 /\ coalesce fuel (b_addr b) (marked (b_addr b) st)
                    = Some (survivor pred b, st')
                 /\ brk st' = brk st)).
Proof.
  intros Hinv Hin Hfuel.
  destruct (ignored_dec st (usable b)) as [Hig|(Hnz & Hrange & Hal & Hflag)].
  - destruct (mfree_ignored st _ fuel Hig) as (st' & Hm & Hsame).
    exists st', l. split_and!; auto.
    apply (same_chain_inv st); auto.
  - destruct (chain_around l b Hin) as (l0 & pred & fs & l2 & -> & Hnone & Hfs & Hl2).
    assert (Hb : b_free b = false).
    { destruct Hinv as [_ _ _ _ _ _ _ _ I9].
      rewrite app_assoc in I9. apply repr_app in I9. destruct I9 as (_ & _ & R2 & _).
      unfold usable in Hflag.
      replace (b_addr b + ALIGNED_METADATA_SIZE - ALIGNED_METADATA_SIZE)
        with (b_addr b) in Hflag by lia.
      rewrite R2 in Hflag. destruct (b_free b); [discriminate | reflexivity]. }
    destruct (mfree_chain st l0 pred b fs l2 fuel)
      as (st' & Hm & Hco & Hinv' & _ & Hbk & _); auto; try lia.
    exists st', (l0 ++ coalesced pred b fs ++ l2). split_and!; auto.
    right. split; [exact Hb|]. exists l0, pred, fs, l2. split_and!; auto.
Qed.

(** ** [align] *)

(** X1: [align] rounds up.  For a size up to [SIZE_MAX - 15] the result is
    the least multiple of 16 that is at least the size: it is a multiple
    of 16, at least the size, less than 16 above it, and below every other
    such multiple. *)
Theorem align_rounds_up size :
  0 <= size <= SIZE_MAX - 15 ->
  align size mod ALIGNMENT = 0
  /\ size <= align size < size + ALIGNMENT
  /\ forall k, k mod ALIGNMENT = 0 -> size <= k -> align size <= k.
Proof.
  intros Hs. pose proof (align_mod size) as Hm.
  pose proof (align_bounds size ltac:(lia) ltac:(lia)) as Hb.
  unfold ALIGNMENT in *. split; [exact Hm|]. split; [lia|].
  intros k Hk Hle. Z.div_mod_to_equations. lia.
Qed.

Lemma align_rounds_up_witness :
  align 20 mod ALIGNMENT = 0
  /\ 20 <= align 20 < 20 + ALIGNMENT
  /\ forall k, k mod ALIGNMENT = 0 -> 20 <= k -> align 20 <= k.
Proof.
  apply (align_rounds_up 20). vm_compute. split; discriminate.
Defined.

(** X2: [align] wraps around.  For the fifteen sizes above
    [SIZE_MAX - 15] the sum in [align] overflows and the aligned size is
    0, so [mallocate] treats the request exactly as a request of 0 bytes. *)
Theorem align_wraps size :
  SIZE_MAX - 15 < size <= SIZE_MAX ->
  align size = 0
  /\ forall fuel st, mallocate fuel size st = mallocate fuel 0 st.
Proof.
  intros Hs.
  assert (E : align size = 0).
  { rewrite align_spec. unfold wrap.
    assert (Hw : (size + 15) mod SIZE_MOD = size + 15 - SIZE_MOD).
    { symmetry. apply (Z.mod_unique _ _ 1); consts; lia. }
    rewrite Hw. consts. Z.div_mod_to_equations. lia. }
  split; [exact E|]. intros fuel st. apply mallocate_align_only.
  rewrite E. reflexivity.
Qed.

Lemma align_wraps_witness :
  align (SIZE_MAX - 3) = 0
  /\ forall fuel st, mallocate fuel (SIZE_MAX - 3) st = mallocate fuel 0 st.
Proof.
  apply (align_wraps (SIZE_MAX - 3)). vm_compute. split; [reflexivity | discriminate].
Defined.

(** ** [print_blocks] *)

(** X3: [print_blocks] lists the chain.  On a well-formed heap it returns
    one row per block, in chain order, with the block's address, size and
    state; the next column of a row is the address right behind the
    block, or [NULL] in the last row. *)
Theorem print_blocks_chain st l fuel :
  heap_inv st l -> (length l < fuel)%nat ->
  print_blocks fuel st = Some (rows_of l)
  /\ map (fun r => fst (fst (fst r))) (rows_of l) = map b_addr l
  /\ forall l1 b l2,
       l = l1 ++ b :: l2 ->
       nth_error (rows_of l) (length l1)
       = Some (b_addr b, b_size b, b_free b,
               match l2 with [] => NULL | _ :: _ => b_addr b + footprint b end).
Proof.
  intros Hinv Hfuel.
  split; [apply print_blocks_spec; auto|].
  destruct Hinv as [_ _ _ I4 _ _ _ _ _].
  split.
  - clear. induction l as [|b l IH]; simpl; [reflexivity | rewrite IH; reflexivity].
  - intros l1 b l2 ->. clear Hfuel. revert I4. generalize (arena_base st).
    induction l1 as [|c l1 IH]; intros a Hl.
    + simpl in *. destruct l2 as [|d l2]; [reflexivity|].
      simpl in *. destruct Hl as (-> & _ & _ & -> & _). reflexivity.
    + simpl in Hl. destruct Hl as (_ & _ & _ & Hl). simpl. apply (IH _ Hl).
Qed.

Lemma print_blocks_chain_witness :
  print_blocks 5 demo = Some (rows_of demo_chain)
  /\ map (fun r => fst (fst (fst r))) (rows_of demo_chain) = map b_addr demo_chain
  /\ forall l1 b l2,
       demo_chain = l1 ++ b :: l2 ->
       nth_error (rows_of demo_chain) (length l1)
       = Some (b_addr b, b_size b, b_free b,
               match l2 with [] => NULL | _ :: _ => b_addr b + footprint b end).
Proof.
  apply (print_blocks_chain demo demo_chain 5).
  - exact demo_inv.
  - simpl. lia.
Defined.

(** ** What [mfree] never does *)

Lemma coalesce_fields fuel block st r st' :
  coalesce fuel block st = Some (r, st') ->
  head st' = head st /\ heap_start st' = heap_start st /\ brk st' = brk st
  /\ brk_lo st' = brk_lo st /\ brk_hi st' = brk_hi st
  /\ sbrk_calls st' = sbrk_calls st.
Proof.
  unfold coalesce.
  destruct (absorb_next fuel block (mem st)) as [m|]; [|discriminate].
  destruct (find_prev fuel m block (head st) NULL) as [prev|]; [|discriminate].
  destruct (negb (prev =? NULL) && negb (get_free m prev =? 0));
    intros H; injection H as <- <-; repeat split.
Qed.

(** X4: [mfree] never gives memory back.  In any state and for any
    pointer, a call of [mfree] leaves the break, [heap_start] and the head
    of the chain as they were, and calls [sbrk] at most once, with
    argument 0. *)
Theorem mfree_keeps_arena fuel ptr st st' :
  mfree fuel ptr st = Some st' ->
  brk st' = brk st /\ heap_start st' = heap_start st /\ head st' = head st
  /\ (sbrk_calls st' = sbrk_calls st \/ sbrk_calls st' = 0 :: sbrk_calls st).
Proof.
  unfold mfree. rewrite sbrk_query. cbn [heap_start mem].
  destruct (ptr =? NULL); [intros H; injection H as <-; auto|].
  destruct ((ptr <? heap_start st) || (brk st <=? ptr));
    [intros H; injection H as <-; simpl; auto|].
  destruct (negb (is_aligned ptr)); [intros H; injection H as <-; simpl; auto|].
  destruct (negb (get_free (mem st) (ptr - ALIGNED_METADATA_SIZE) =? 0));
    [intros H; injection H as <-; simpl; auto|].
  destruct (coalesce fuel _ _) as [[r st1]|] eqn:Hc; [|discriminate].
  intros H. injection H as <-.
  destruct (coalesce_fields _ _ _ _ _ Hc) as (E1 & E2 & E3 & _ & _ & E6).
  simpl in *. auto.
Qed.

Lemma mfree_keeps_arena_witness :
  brk run_freed = brk run_heap /\ heap_start run_freed = heap_start run_heap
  /\ head run_freed = head run_heap
  /\ (sbrk_calls run_freed = sbrk_calls run_heap
      \/ sbrk_calls run_freed = 0 :: sbrk_calls run_heap).
Proof.
  apply (mfree_keeps_arena 7 4240 run_heap run_freed).
  vm_compute. reflexivity.
Defined.

(** ** Blocks in use are left alone *)

(** X5: [mallocate] leaves the blocks in use alone.  On a well-formed heap
    and for a representable size, every block that was in use is still in
    the chain afterwards, at the same address, with the same size and in
    use; and the block handed out, header and aligned size together, does
    not overlap any of them. *)
Theorem mallocate_keeps_live_blocks st l size fuel :
  heap_inv st l -> representable size -> (length l < fuel)%nat ->
  exists p st' l',
    mallocate fuel size st = Some (p, st')
    /\ heap_inv st' l'
    /\ forall c, In c l -> b_free c = false ->
         In c l'
         /\ (p <> NULL ->
             b_addr c + footprint c <= p - ALIGNED_METADATA_SIZE
             \/ p + align size <= b_addr c).
Proof.
  intros Hinv Hrep Hfuel.
  destruct (mallocate_cases st l size fuel Hinv Hrep Hfuel)
    as (p & st' & l' & Hm & Hinv' & Hcases).
  exists p, st', l'. split; [exact Hm|]. split; [exact Hinv'|].
  pose proof Hinv as [_ _ _ I4 I5 _ _ _ _].
  intros c Hc Hcf.
  destruct Hcases as [(-> & -> & _)|[(-> & -> & _)|(l1 & b & l2 & -> & _ & Hfit & -> & -> & _)]].
  - split; [exact Hc | congruence].
  - split; [apply in_or_app; left; exact Hc|]. intros _. left.
    destruct (layout_in_bounds _ _ c I4 Hc) as (_ & Hb).
    unfold usable, grown. simpl. lia.
  - unfold fits in Hfit. apply andb_prop in Hfit. destruct Hfit as (Hbf & Hbs).
    apply Z.leb_le in Hbs.
    assert (Hb : In b (l1 ++ b :: l2)) by (apply in_or_app; right; left; reflexivity).
    split.
    + apply in_app_or in Hc. destruct Hc as [Hc|[->|Hc]].
      * apply in_or_app. left. exact Hc.
      * congruence.
      * apply in_or_app. right. apply in_or_app. right. exact Hc.
    + intros _. unfold usable.
      destruct (layout_disjoint _ _ c b I4 Hc Hb) as [->|[H|H]];
        [congruence | left; lia | right; unfold footprint in H; lia].
Qed.

Lemma mallocate_keeps_live_blocks_witness :
  exists p st' l',
    mallocate 5 20 demo = Some (p, st')
    /\ heap_inv st' l'
    /\ forall c, In c demo_chain -> b_free c = false ->
         In c l'
         /\ (p <> NULL ->
             b_addr c + footprint c <= p - ALIGNED_METADATA_SIZE
             \/ p + align 20 <= b_addr c).
Proof.
  apply (mallocate_keeps_live_blocks demo demo_chain 20 5).
  - exact demo_inv.
  - vm_compute. discriminate.
  - simpl. lia.
Defined.

(** X6: [mfree] leaves the other blocks in use alone.  Releasing the
    pointer of a block of a well-formed heap keeps every other block that
    is in use in the chain, at the same address, with the same size and in
    use: only free blocks are merged away. *)
Theorem mfree_keeps_live_blocks st l b fuel :
  heap_inv st l -> In b l -> (length l < fuel)%nat ->
  exists st' l',
    mfree fuel (usable b) st = Some st'
    /\ heap_inv st' l'
    /\ forall c, In c l -> b_free c = false -> c <> b -> In c l'.
Proof.
  intros Hinv Hin Hfuel.
  destruct (mfree_cases st l b fuel Hinv Hin Hfuel)
    as (st' & l' & Hm & Hinv' & Hcases).
  exists st', l'. split; [exact Hm|]. split; [exact Hinv'|].
  intros c Hc Hcf Hcb.
  destruct Hcases as [(_ & _ & ->)|(_ & l0 & pred & fs & l2 & -> & _ & Hfs & _ & -> & _)];
    [exact Hc|].
  apply in_app_or in Hc. destruct Hc as [Hc|Hc]; [apply in_or_app; left; exact Hc|].
  apply in_or_app. right.
  apply in_app_or in Hc. destruct Hc as [Hc|[Hc|Hc]].
  - apply in_or_app. left. unfold coalesced.
    destruct pred as [q|]; simpl in Hc; [|destruct Hc].
    destruct Hc as [->|[]]. rewrite Hcf. left. reflexivity.
  - congruence.
  - apply in_app_or in Hc. destruct Hc as [Hc|Hc].
    + rewrite Forall_forall in Hfs. apply list_elem_of_In, Hfs in Hc. congruence.
    + apply in_or_app. right. exact Hc.
Qed.

Lemma mfree_keeps_live_blocks_witness :
  exists st' l',
    mfree 7 (usable (mkBlock 4208 48 false)) run_heap = Some st'
    /\ heap_inv st' l'
    /\ forall c, In c run_chain -> b_free c = false ->
         c <> mkBlock 4208 48 false -> In c l'.
Proof.
  apply (mfree_keeps_live_blocks run_heap run_chain (mkBlock 4208 48 false) 7).
  - exact run_inv.
  - simpl. auto.
  - simpl. lia.
Defined.

(** ** The caller's bytes are left alone *)

(** X7: [mfree] does not write into usable regions.  On a well-formed
    heap, for a pointer [mfree] ignores or the pointer of a block of the
    chain, every cell in the usable region of every block of the chain,
    the released one included, holds after the call what it held
    before. *)
Theorem mfree_keeps_user_data st l ptr fuel :
  heap_inv st l ->
  ignored st ptr \/ (exists b, In b l /\ ptr = usable b) ->
  (length l < fuel)%nat ->
  exists st',
    mfree fuel ptr st = Some st'
    /\ forall c x, In c l -> in_usable c x -> load (mem st') x = load (mem st) x.
Proof.
  intros Hinv Hptr Hfuel.
  destruct Hptr as [Hig|(b & Hin & ->)].
  { destruct (mfree_ignored st ptr fuel Hig) as (st' & Hm & E & _).
    exists st'. split; [exact Hm|]. intros c x _ _. rewrite E. reflexivity. }
  destruct (mfree_cases st l b fuel Hinv Hin Hfuel)
    as (st' & l' & Hm & _ & Hcases).
  exists st'. split; [exact Hm|]. intros c x Hc Hx.
  destruct Hcases as [(_ & (E & _) & _)|(_ & l0 & pred & fs & l2 & El & _ & _ & _ & _ & Hco & _)].
  { rewrite E. reflexivity. }
  pose proof Hinv as [_ _ _ I4 _ _ _ _ _].
  assert (Hb : ~ (b_addr b <= x < b_addr b + ALIGNED_METADATA_SIZE))
    by (apply (usable_not_header _ _ c b x I4); auto).
  assert (Hs : ~ (survivor pred b <= x < survivor pred b + ALIGNED_METADATA_SIZE)).
  { unfold survivor. destruct pred as [q|]; [|exact Hb].
    destruct (b_free q); [|exact Hb].
    apply (usable_not_header _ _ c q x I4); auto.
    rewrite El. apply in_or_app. right. left. reflexivity. }
  rewrite (coalesce_frame _ _ _ _ _ x Hco); unfold OFF_SIZE, OFF_NEXT; consts; try lia.
  unfold marked. rewrite sbrk_query. simpl. fields. mem_simpl. reflexivity.
Qed.

Lemma mfree_keeps_user_data_witness :
  exists st',
    mfree 7 4240 run_heap = Some st'
    /\ forall c x, In c run_chain -> in_usable c x ->
         load (mem st') x = load (mem run_heap) x.
Proof.
  apply (mfree_keeps_user_data run_heap run_chain 4240 7).
  - exact run_inv.
  - right. exists (mkBlock 4208 48 false). split; [simpl; auto | reflexivity].
  - simpl. lia.
Defined.



(** ** Allocation and release together *)

(** What [split] leaves: the block in use and at most one free block. *)
Lemma split_blocks_shape b s :
  exists b' fs,
    split_blocks b s = b' :: fs
    /\ b_addr b' = b_addr b /\ b_free b' = false
    /\ Forall (fun f => b_free f = true) fs /\ (length fs <= 1)%nat
    /\ absorbed (b_size b') fs = b_size b.
Proof.
  unfold split_blocks. destruct (b_size b <? s + MIN_BLOCK_SIZE).
  - eexists _, []. split; [reflexivity|]. simpl. repeat split; auto.
  - eexists _, [_]. split; [reflexivity|]. simpl. repeat split; auto.
    unfold absorbed. simpl. consts. lia.
Qed.

(** Every chain is empty or ends with a last block. *)
Lemma chain_before l1 :
  exists l0 pred,
    l1 = l0 ++ option_list pred
    /\ (pred = None -> l0 = [])
    /\ last_free l1 = match pred with Some q => b_free q | None => false end.
Proof.
  destruct l1 as [|c l1] using rev_ind.
  - exists [], None. auto.
  - exists l1, (Some c). simpl. split; [reflexivity|]. split; [discriminate|].
    apply last_free_snoc.
Qed.

(** X9: take and give back.  On a well-formed heap without two free
    neighbours and with a 16-aligned arena, when the first fitting block
    does not end the arena with size 0, [mallocate] followed by [mfree] of
    the pointer it returned leaves exactly the chain there was before: the
    remainder [split] carved off is absorbed again. *)
Theorem mallocate_mfree_round_trip st l1 b l2 size fuel :
  heap_inv st (l1 ++ b :: l2) ->
  no_adjacent_free (l1 ++ b :: l2) ->
  arena_base st mod ALIGNMENT = 0 ->
  Forall (fun c => fits (align size) c = false) l1 ->
  fits (align size) b = true ->
  usable b < brk st ->
  (S (length (l1 ++ b :: l2)) < fuel)%nat ->
  exists st1 st2,
    mallocate fuel size st = Some (usable b, st1)
    /\ mfree fuel (usable b) st1 = Some st2
    /\ heap_inv st2 (l1 ++ b :: l2)
    /\ brk st2 = brk st.
Proof.
  intros Hinv Hn Hal Hno Hfit Hbrk Hfuel.
  destruct (mallocate_fit_chain st l1 b l2 size fuel Hinv Hno Hfit)
    as (st1 & Hm & Hinv1 & _ & Hb1).
  { rewrite length_app in *. lia. }
  exists st1.
  apply no_adjacent_free_app in Hn. destruct Hn as (_ & Hbl2 & Hlast).
  unfold fits in Hfit. apply andb_prop in Hfit. destruct Hfit as (Hbf & _).
  cbn [no_adjacent_free first_free] in Hbl2, Hlast.
  rewrite Hbf in Hbl2, Hlast. rewrite andb_true_r in Hlast.
  destruct Hbl2 as (Hl2 & _). simpl in Hl2.
  destruct (chain_before l1) as (l0 & pred & El1 & Hnone & Hpf).
  rewrite Hlast in Hpf.
  destruct (split_blocks_shape b (align size))
    as (b' & fs & Esp & Eaddr & Ebf & Hfs & Hlen & Eabs).
  assert (Hub : usable b' = usable b) by (unfold usable; rewrite Eaddr; reflexivity).
  assert (Hlist : l1 ++ split_blocks b (align size) ++ l2
                  = l0 ++ option_list pred ++ b' :: fs ++ l2).
  { rewrite Esp, El1, <- app_assoc. reflexivity. }
  rewrite Hlist in Hinv1.
  destruct (mfree_chain st1 l0 pred b' fs l2 fuel Hinv1 Hnone Ebf)
    as (st2 & Hf & _ & Hinv2 & _ & Hb2 & _); auto.
  - rewrite Hub. lia.
  - rewrite Hub. unfold is_aligned, usable. apply Z.eqb_eq.
    assert (Ha : b_addr b mod ALIGNMENT = 0).
    { destruct Hinv as [_ _ _ I4 _ _ _ _ _].
      apply (layout_aligned (arena_base st) (l1 ++ b :: l2)); auto.
      apply in_or_app. right. left. reflexivity. }
    consts. Z.div_mod_to_equations. lia.
  - rewrite <- Hlist, Esp. rewrite !length_app in *. simpl in *. lia.
  - exists st2. rewrite Hub in Hf. split_and!; auto; [|congruence].
    assert (Hco : coalesced pred b' fs = option_list pred ++ [b]).
    { unfold coalesced. rewrite Eaddr, Eabs.
      assert (Eb : mkBlock (b_addr b) (b_size b) true = b)
        by (destruct b; simpl in *; subst; reflexivity).
      rewrite Eb. destruct pred as [q|]; [|reflexivity].
      rewrite <- Hpf. reflexivity. }
    rewrite Hco, El1 in *. rewrite <- !app_assoc in *. simpl in *. exact Hinv2.
Qed.

Lemma mallocate_mfree_round_trip_witness :
  exists st1 st2,
    mallocate 7 20 demo = Some (4336, st1)
    /\ mfree 7 4336 st1 = Some st2
    /\ heap_inv st2 demo_chain
    /\ brk st2 = brk demo.
Proof.
  apply (mallocate_mfree_round_trip demo
           [mkBlock 4096 64 false; mkBlock 4192 16 true; mkBlock 4240 32 false]
           (mkBlock 4304 112 true) [] 20 7).
  - exact demo_inv.
  - simpl. auto.
  - reflexivity.
  - repeat constructor.
  - reflexivity.
  - vm_compute. reflexivity.
  - simpl. lia.
Defined.

Lemma coalesced_has_room pred b fs :
  (forall q, pred = Some q -> 0 <= b_size q) ->
  Forall (fun f => 0 <= b_size f) fs ->
  exists c, In c (coalesced pred b fs) /\ b_free c = true /\ b_size b <= b_size c.
Proof.
  intros Hq Hfs. pose proof (absorbed_ge fs (b_size b) Hfs) as Hge.
  unfold coalesced. destruct pred as [q|].
  - specialize (Hq q eq_refl). destruct (b_free q).
    + eexists. split; [left; reflexivity|]. simpl. split; [reflexivity|]. consts. lia.
    + eexists. split; [right; left; reflexivity|]. simpl. auto.
  - eexists. split; [left; reflexivity|]. simpl. auto.
Qed.

Lemma coalesced_length pred b fs :
  (1 <= length (coalesced pred b fs) <= length (option_list pred ++ b :: fs))%nat.
Proof.
  unfold coalesced. destruct pred as [q|]; [destruct (b_free q)|]; simpl; lia.
Qed.

(** X10: released memory is used again.  On a well-formed heap, after
    [mfree] of a valid pointer to a block in use of [n] usable bytes, a
    request whose aligned size is at most [n] succeeds without calling
    [sbrk]: the break stays where it was. *)
Theorem mfree_then_mallocate_reuses st l b size fuel :
  heap_inv st l -> In b l -> b_free b = false ->
  usable b < brk st -> is_aligned (usable b) = true ->
  align size <= b_size b ->
  (length l < fuel)%nat ->
  exists st1 p st2,
    mfree fuel (usable b) st = Some st1
    /\ mallocate fuel size st1 = Some (p, st2)
    /\ p <> NULL
    /\ sbrk_calls st2 = sbrk_calls st1
    /\ brk st2 = brk st.
Proof.
  intros Hinv Hin Hbf Hbrk Hal Hsize Hfuel.
  destruct (chain_around l b Hin) as (l0 & pred & fs & l2 & -> & Hnone & Hfs & Hl2).
  destruct (mfree_chain st l0 pred b fs l2 fuel Hinv Hnone Hbf Hbrk Hal Hfs Hl2 Hfuel)
    as (st1 & Hf & _ & Hinv1 & _ & Hb1 & _).
  pose proof Hinv as [_ _ _ I4 _ _ _ _ _].
  destruct (coalesced_has_room pred b fs) as (c & Hc & Hcf & Hcs).
  { intros q ->. apply (layout_size_nonneg _ _ q I4).
    apply in_or_app. right. left. reflexivity. }
  { apply Forall_forall. intros f Hf'. apply list_elem_of_In in Hf'.
    apply (layout_size_nonneg _ _ f I4).
    apply in_or_app. right. apply in_or_app. right. right.
    apply in_or_app. left. exact Hf'. }
  assert (Hcin : In c (l0 ++ coalesced pred b fs ++ l2)).
  { apply in_or_app. right. apply in_or_app. left. exact Hc. }
  destruct (first_fit_cases (align size) (l0 ++ coalesced pred b fs ++ l2))
    as [Hno|(l1 & b0 & l2' & El & Hno & Hfit)].
  { exfalso. rewrite Forall_forall in Hno.
    apply list_elem_of_In, Hno in Hcin. unfold fits in Hcin. rewrite Hcf in Hcin.
    simpl in Hcin. apply Z.leb_gt in Hcin. lia. }
  rewrite El in Hinv1.
  destruct (mallocate_fit_chain st1 l1 b0 l2' size fuel Hinv1 Hno Hfit)
    as (st2 & Hm & _ & Hc2 & Hb2).
  { pose proof (coalesced_length pred b fs) as Hlen.
    assert (Hl : (length (l1 ++ b0 :: l2')
                  <= length (l0 ++ option_list pred ++ b :: fs ++ l2))%nat).
    { rewrite <- El. rewrite !length_app in *. simpl in *.
      rewrite !length_app in *. simpl in *. lia. }
    rewrite length_app in Hl. simpl in Hl. lia. }
  exists st1, (usable b0), st2. split_and!; auto; [|congruence].
  destruct Hinv1 as [_ J2 _ J4 _ _ _ _ _].
  destruct (layout_in_bounds _ _ b0 J4) as (Hlo & _).
  { apply in_or_app. right. left. reflexivity. }
  unfold usable, NULL. consts. lia.
Qed.

Lemma mfree_then_mallocate_reuses_witness :
  exists st1 p st2,
    mfree 7 4240 run_heap = Some st1
    /\ mallocate 7 40 st1 = Some (p, st2)
    /\ p <> NULL
    /\ sbrk_calls st2 = sbrk_calls st1
    /\ brk st2 = brk run_heap.
Proof.
  apply (mfree_then_mallocate_reuses run_heap run_chain (mkBlock 4208 48 false) 40 7).
  - exact run_inv.
  - simpl. auto.
  - reflexivity.
  - vm_compute. reflexivity.
  - reflexivity.
  - vm_compute. discriminate.
  - simpl. lia.
Defined.

(** X11: bounded waste.  On a well-formed heap and for a representable
    size, the block a successful [mallocate] hands out is in use and its
    usable size is at least the aligned size and less than the aligned
    size plus [MIN_BLOCK_SIZE]: a fitting block larger than that is
    split. *)
Theorem mallocate_bounded_waste st l size fuel :
  heap_inv st l -> representable size -> (length l < fuel)%nat ->
  exists p st' l',
    mallocate fuel size st = Some (p, st')
    /\ heap_inv st' l'
    /\ (p <> NULL ->
        exists c, In c l' /\ usable c = p /\ b_free c = false
                  /\ align size <= b_size c < align size + MIN_BLOCK_SIZE).
Proof.
  intros Hinv Hrep Hfuel.
  destruct (mallocate_cases st l size fuel Hinv Hrep Hfuel)
    as (p & st' & l' & Hm & Hinv' & Hcases).
  exists p, st', l'. split; [exact Hm|]. split; [exact Hinv'|]. intros Hp.
  destruct Hcases as [(-> & _)|[(-> & -> & _)|(l1 & b & l2 & -> & _ & Hfit & -> & -> & _)]].
  - congruence.
  - exists (grown st size). split_and!; auto.
    + apply in_or_app. right. left. reflexivity.
    + simpl. lia.
    + simpl. consts. lia.
  - unfold fits in Hfit. apply andb_prop in Hfit. destruct Hfit as (_ & Hbs).
    apply Z.leb_le in Hbs. unfold split_blocks.
    destruct (Z.ltb_spec (b_size b) (align size + MIN_BLOCK_SIZE)).
    + eexists. split; [apply in_or_app; right; left; reflexivity|].
      simpl. split_and!; auto.
    + eexists. split; [apply in_or_app; right; left; reflexivity|].
      simpl. split_and!; auto; consts; lia.
Qed.

Lemma mallocate_bounded_waste_witness :
  exists p st' l',
    mallocate 5 20 demo = Some (p, st')
    /\ heap_inv st' l'
    /\ (p <> NULL ->
        exists c, In c l' /\ usable c = p /\ b_free c = false
                  /\ align 20 <= b_size c < align 20 + MIN_BLOCK_SIZE).
Proof.
  apply (mallocate_bounded_waste demo demo_chain 20 5).
  - exact demo_inv.
  - vm_compute. discriminate.
  - simpl. lia.
Defined.

(** ** The arena as a whole *)

Lemma chain_end_total a l : chain_end a l = a + total_bytes l.
Proof.
  revert a. induction l as [|b l IH]; intros a; unfold total_bytes in *; simpl.
  - lia.
  - rewrite IH. lia.
Qed.

(** X12: the blocks tile the arena.  In every state a process reaches by
    calls of [mallocate] with representable sizes and of [mfree] on
    pointers it ignores or pointers of blocks of the chain, the blocks
    [print_blocks] lists lie one right behind the other from the start of
    the arena to the break, so their headers and usable sizes add up to
    the size of the arena. *)
Theorem reachable_tiles_arena (admissible : Z -> Prop) st :
  (forall n, admissible n -> representable n) ->
  reachable admissible st ->
  exists l,
    (forall fuel, (length l < fuel)%nat -> print_blocks fuel st = Some (rows_of l))
    /\ layout (arena_base st) l
    /\ chain_end (arena_base st) l = brk st
    /\ total_bytes l = brk st - arena_base st.
Proof.
  intros Hadm Hreach.
  destruct (reachable_inv admissible Hadm st Hreach) as (l & Hinv & _).
  exists l. pose proof Hinv as [_ _ _ I4 I5 _ _ _ _].
  split_and!; auto.
  - intros fuel Hfuel. apply print_blocks_spec; auto.
  - rewrite chain_end_total in I5. lia.
Qed.

Lemma reachable_tiles_arena_witness :
  exists l,
    (forall fuel, (length l < fuel)%nat ->
                  print_blocks fuel first_block = Some (rows_of l))
    /\ layout (arena_base first_block) l
    /\ chain_end (arena_base first_block) l = brk first_block
    /\ total_bytes l = brk first_block - arena_base first_block.
Proof.
  apply (reachable_tiles_arena representable first_block).
  - intros n H. exact H.
  - apply (reach_mallocate representable (fresh 4096 8192) 1 64 4128).
    + apply reach_fresh; [lia | lia | vm_compute; discriminate].
    + vm_compute. discriminate.
    + vm_compute. reflexivity.
Defined.

(** ** The length of the chain *)

Lemma free_run_short fs :
  Forall (fun f => b_free f = true) fs -> no_adjacent_free fs -> (length fs <= 1)%nat.
Proof.
  intros Hfs Hn. destruct fs as [|f [|g fs]]; simpl; try lia.
  inversion Hfs as [|? ? Hf Hfs']; subst. inversion Hfs' as [|? ? Hg _]; subst.
  simpl in Hn. rewrite Hf, Hg in Hn. destruct Hn as (Hn & _). discriminate.
Qed.

(** X13: [mfree] only shortens the chain.  Releasing the pointer of a
    block of a well-formed heap never adds a block and never empties the
    chain; when no two neighbours were free, at most two blocks
    disappear, the successor and the block itself merged into its
    predecessor. *)
Theorem mfree_chain_length st l b fuel :
  heap_inv st l -> In b l -> (length l < fuel)%nat ->
  exists st' l',
    mfree fuel (usable b) st = Some st'
    /\ heap_inv st' l'
    /\ (1 <= length l' <= length l)%nat
    /\ (no_adjacent_free l -> (length l <= length l' + 2)%nat).
Proof.
  intros Hinv Hin Hfuel.
  destruct (mfree_cases st l b fuel Hinv Hin Hfuel)
    as (st' & l' & Hm & Hinv' & Hcases).
  exists st', l'. split; [exact Hm|]. split; [exact Hinv'|].
  destruct Hcases as [(_ & _ & ->)|(_ & l0 & pred & fs & l2 & -> & _ & Hfs & _ & -> & _)].
  - split; [|lia]. destruct l; [destruct Hin | simpl; lia].
  - pose proof (coalesced_length pred b fs) as Hlen.
    rewrite !length_app in *. simpl in *. rewrite !length_app in *. simpl in *.
    split; [lia|]. intros Hn.
    apply no_adjacent_free_app in Hn. destruct Hn as (_ & Hn & _).
    apply no_adjacent_free_app in Hn. destruct Hn as (_ & Hn & _).
    cbn [no_adjacent_free] in Hn. destruct Hn as (_ & Hn).
    apply no_adjacent_free_app in Hn. destruct Hn as (Hn & _).
    pose proof (free_run_short fs Hfs Hn).
    destruct pred; simpl in *; lia.
Qed.

Lemma mfree_chain_length_witness :
  exists st' l',
    mfree 5 (usable (mkBlock 4240 32 false)) demo = Some st'
    /\ heap_inv st' l'
    /\ (1 <= length l' <= length demo_chain)%nat
    /\ (no_adjacent_free demo_chain -> (length demo_chain <= length l' + 2)%nat).
Proof.
  apply (mfree_chain_length demo demo_chain (mkBlock 4240 32 false) 5).
  - exact demo_inv.
  - simpl. auto.
  - simpl. lia.
Defined.

(** X14: [mallocate] adds at most one block.  On a well-formed heap and
    for a representable size, the chain after [mallocate] has the blocks
    it had or one more (the block appended, or the remainder of a split);
    when the call fails the chain is the same. *)
Theorem mallocate_chain_length st l size fuel :
  heap_inv st l -> representable size -> (length l < fuel)%nat ->
  exists p st' l',
    mallocate fuel size st = Some (p, st')
    /\ heap_inv st' l'
    /\ (length l <= length l' <= S (length l))%nat
    /\ (p = NULL -> l' = l).
Proof.
  intros Hinv Hrep Hfuel.
  destruct (mallocate_cases st l size fuel Hinv Hrep Hfuel)
    as (p & st' & l' & Hm & Hinv' & Hcases).
  exists p, st', l'. split; [exact Hm|]. split; [exact Hinv'|].
  destruct Hcases as [(-> & -> & _)|[(-> & -> & _)|(l1 & b & l2 & -> & _ & _ & -> & -> & _)]].
  - split; [lia | auto].
  - rewrite length_app. simpl. split; [lia|].
    intros E. exfalso. destruct Hinv as [_ I2 _ I4 I5 _ _ _ _].
    pose proof (layout_le _ _ I4). unfold usable, grown, NULL in E. simpl in E.
    consts. lia.
  - destruct (split_blocks_shape b (align size)) as (b' & fs & -> & _ & _ & _ & Hlen & _).
    rewrite !length_app. simpl. rewrite ?length_app. split; [lia|].
    intros E. exfalso. destruct Hinv as [_ I2 _ I4 _ _ _ _ _].
    destruct (layout_in_bounds _ _ b I4) as (Hlo & _).
    { apply in_or_app. right. left. reflexivity. }
    unfold usable, NULL in E. consts. lia.
Qed.

Lemma mallocate_chain_length_witness :
  exists p st' l',
    mallocate 5 20 demo = Some (p, st')
    /\ heap_inv st' l'
    /\ (length demo_chain <= length l' <= S (length demo_chain))%nat
    /\ (p = NULL -> l' = demo_chain).
Proof.
  apply (mallocate_chain_length demo demo_chain 20 5).
  - exact demo_inv.
  - vm_compute. discriminate.
  - simpl. lia.
Defined.

(** ** Two allocations *)

(** One call of [mallocate], with all that the next call needs to know. *)
Lemma mallocate_step st l size fuel :
  heap_inv st l -> representable size -> (length l < fuel)%nat ->
  exists p st' l',
    mallocate fuel size st = Some (p, st')
    /\ heap_inv st' l'
    /\ (length l' <= S (length l))%nat
    /\ (p <> NULL ->
        (exists c, In c l' /\ usable c = p /\ b_free c = false
                   /\ align size <= b_size c)
        /\ forall c, In c l -> b_free c = false ->
             b_addr c + footprint c <= p - ALIGNED_METADATA_SIZE
             \/ p + align size <= b_addr c).
Proof.
  intros Hinv Hrep Hfuel.
  destruct (mallocate_cases st l size fuel Hinv Hrep Hfuel)
    as (p & st' & l' & Hm & Hinv' & Hcases).
  exists p, st', l'. split; [exact Hm|]. split; [exact Hinv'|].
  pose proof Hinv as [_ _ _ I4 I5 _ _ _ _].
  destruct Hcases as [(-> & -> & _)|[(-> & -> & _)|(l1 & b & l2 & -> & _ & Hfit & -> & -> & _)]].
  - split; [lia | congruence].
  - rewrite length_app. simpl. split; [lia|]. intros _. split.
    + exists (grown st size). split_and!; auto; [|simpl; lia].
      apply in_or_app. right. left. reflexivity.
    + intros c Hc _. left.
      destruct (layout_in_bounds _ _ c I4 Hc) as (_ & Hb).
      unfold usable, grown. simpl. lia.
  - unfold fits in Hfit. apply andb_prop in Hfit. destruct Hfit as (Hbf & Hbs).
    apply Z.leb_le in Hbs.
    assert (Hb : In b (l1 ++ b :: l2)) by (apply in_or_app; right; left; reflexivity).
    destruct (split_blocks_shape b (align size))
      as (b' & fs & Esp & Eaddr & Ebf & _ & Hlen & _).
    split; [|intros _; split].
    + rewrite Esp, !length_app. simpl. rewrite ?length_app. lia.
    + exists b'. split_and!; auto.
      * apply in_or_app. right. rewrite Esp. left. reflexivity.
      * unfold usable. rewrite Eaddr. reflexivity.
      * revert Esp. unfold split_blocks.
        destruct (b_size b <? align size + MIN_BLOCK_SIZE);
          intros E; injection E as <- _; simpl; lia.
    + intros c Hc Hcf. unfold usable.
      destruct (layout_disjoint _ _ c b I4 Hc Hb) as [->|[H|H]];
        [congruence | left; lia | right; unfold footprint in H; lia].
Qed.

(** X15: two allocations do not overlap.  On a well-formed heap, when two
    calls of [mallocate] with representable sizes in a row both succeed,
    the two regions handed out, each with its header before it and its
    aligned size behind, are disjoint. *)
Theorem mallocate_twice_disjoint st l size1 size2 fuel :
  heap_inv st l -> representable size1 -> representable size2 ->
  (S (length l) < fuel)%nat ->
  exists p1 st1 p2 st2,
    mallocate fuel size1 st = Some (p1, st1)
    /\ mallocate fuel size2 st1 = Some (p2, st2)
    /\ (p1 <> NULL -> p2 <> NULL ->
        p1 + align size1 <= p2 - ALIGNED_METADATA_SIZE
        \/ p2 + align size2 <= p1 - ALIGNED_METADATA_SIZE).
Proof.
  intros Hinv Hr1 Hr2 Hfuel.
  destruct (mallocate_step st l size1 fuel Hinv Hr1 ltac:(lia))
    as (p1 & st1 & l1 & Hm1 & Hinv1 & Hlen1 & H1).
  destruct (mallocate_step st1 l1 size2 fuel Hinv1 Hr2 ltac:(lia))
    as (p2 & st2 & l2 & Hm2 & _ & _ & H2).
  exists p1, st1, p2, st2. split; [exact Hm1|]. split; [exact Hm2|].
  intros Hp1 Hp2.
  destruct (H1 Hp1) as ((c & Hc & Hu & Hcf & Hcs) & _).
  destruct (H2 Hp2) as (_ & Hlive).
  destruct (Hlive c Hc Hcf) as [H|H]; unfold usable, footprint in *; consts; lia.
Qed.

Lemma mallocate_twice_disjoint_witness :
  exists p1 st1 p2 st2,
    mallocate 6 20 demo = Some (p1, st1)
    /\ mallocate 6 100 st1 = Some (p2, st2)
    /\ (p1 <> NULL -> p2 <> NULL ->
        p1 + align 20 <= p2 - ALIGNED_METADATA_SIZE
        \/ p2 + align 100 <= p1 - ALIGNED_METADATA_SIZE).
Proof.
  apply (mallocate_twice_disjoint demo demo_chain 20 100 6).
  - exact demo_inv.
  - vm_compute. discriminate.
  - vm_compute. discriminate.
  - simpl. lia.
Defined.

(** ** Edges outside the intended use *)

(** X16: before the first allocation [mfree] has no lower bound.  While
    [heap_start] is still [NULL] and the chain is empty, every 16-aligned
    address between 0 and the break passes the checks of [mfree]; when
    the header presumed 32 bytes before it reads as in use and without
    successor, [mfree] sets its [free] flag and writes nothing else. *)
Theorem mfree_before_first_allocation st ptr fuel :
  heap_start st = NULL -> head st = NULL ->
  0 < ptr < brk st -> is_aligned ptr = true ->
  get_free (mem st) (ptr - ALIGNED_METADATA_SIZE) = 0 ->
  get_next (mem st) (ptr - ALIGNED_METADATA_SIZE) = NULL ->
  exists st',
    mfree (S fuel) ptr st = Some st'
    /\ mem st' = set_free (ptr - ALIGNED_METADATA_SIZE) 1 (mem st)
    /\ get_free (mem st') (ptr - ALIGNED_METADATA_SIZE) = 1.
Proof.
  intros Hs Hh Hp Hal Hf Hn.
  unfold mfree. rewrite sbrk_query. cbn [heap_start mem].
  destruct (Z.eqb_spec ptr NULL) as [E|_]; [unfold NULL in E; lia|].
  rewrite Hs.
  destruct (Z.ltb_spec ptr NULL) as [E|_]; [unfold NULL in E; lia|].
  destruct (Z.leb_spec (brk st) ptr) as [E|_]; [lia|].
  rewrite Hal, Hf. cbn [orb negb Z.eqb].
  set (md := ptr - ALIGNED_METADATA_SIZE) in *.
  assert (Hn1 : get_next (set_free md 1 (mem st)) md = NULL).
  { fields. mem_simpl. exact Hn. }
  unfold coalesce. cbn [with_mem mem head absorb_next find_prev].
  rewrite Hn1, Hh. rewrite !Z.eqb_refl. cbn [negb andb].
  eexists. split; [reflexivity|]. cbn [with_mem mem]. split; [reflexivity|].
  fields. mem_simpl. reflexivity.
Qed.

Lemma mfree_before_first_allocation_witness :
  exists st',
    mfree 1 4080 (fresh 4096 8192) = Some st'
    /\ mem st' = set_free (4080 - ALIGNED_METADATA_SIZE) 1 (mem (fresh 4096 8192))
    /\ get_free (mem st') (4080 - ALIGNED_METADATA_SIZE) = 1.
Proof.
  apply (mfree_before_first_allocation (fresh 4096 8192) 4080 0).
  - reflexivity.
  - reflexivity.
  - simpl. lia.
  - reflexivity.
  - reflexivity.
  - reflexivity.
Defined.

(** The growth path when header plus aligned size is [2^64]. *)
Lemma total_wraps_raw st l size fuel :
  heap_inv st l -> SIZE_MAX - 46 <= size <= SIZE_MAX - 31 ->
  (length l < fuel)%nat ->
  Forall (fun c => fits (align size) c = false) l
  /\ wrap (ALIGNED_METADATA_SIZE + align size) = 0
  /\ exists st',
       mallocate fuel size st = Some (brk st + ALIGNED_METADATA_SIZE, st')
       /\ sbrk_calls st'
          = 0 :: (if heap_start st =? NULL then [0] else []) ++ sbrk_calls st
       /\ brk st' = brk st
       /\ get_size (mem st') (brk st) = SIZE_MAX - 31
       /\ get_free (mem st') (brk st) = 0
       /\ head st' = first_addr (l ++ [mkBlock (brk st) (SIZE_MAX - 31) false]) NULL
       /\ repr (mem st') (l ++ [mkBlock (brk st) (SIZE_MAX - 31) false]) NULL.
Proof.
  intros Hinv Hs Hfuel.
  pose proof Hinv as [_ I2 _ I4 I5 _ I7 I8 _].
  assert (Ea : align size = SIZE_MAX - 31).
  { rewrite align_spec. rewrite wrap_small by (consts; lia).
    consts. Z.div_mod_to_equations. lia. }
  assert (Hno : Forall (fun c => fits (align size) c = false) l).
  { apply Forall_forall. intros c Hc. apply list_elem_of_In in Hc.
    destruct (layout_in_bounds _ _ c I4 Hc) as (Hlo & Hhi).
    unfold fits. apply andb_false_intro2. apply Z.leb_gt.
    rewrite Ea. consts. lia. }
  split; [exact Hno|].
  split; [rewrite Ea; vm_compute; reflexivity|].
  destruct (mallocate_grow_raw st l size fuel Hinv Hno Hfuel)
    as (p & st' & Hm & Hc & _ & _ & _ & Hres).
  cbv zeta in Hres, Hc.
  assert (Einc : to_intptr (wrap (ALIGNED_METADATA_SIZE + align size)) = 0).
  { rewrite Ea. vm_compute. reflexivity. }
  rewrite Einc in Hres, Hc. rewrite sbrk_query in Hres. cbn [fst] in Hres.
  assert (Hbrk : (brk st =? SBRK_FAILED) = false).
  { apply Z.eqb_neq. unfold SBRK_FAILED. consts. lia. }
  rewrite Hbrk in Hres. destruct Hres as (-> & Hb & _ & Hh & _ & Hr).
  unfold grown in Hh, Hr. rewrite Ea in Hh, Hr.
  exists st'. split; [exact Hm|]. split; [exact Hc|]. split; [lia|].
  pose proof Hr as Hr'. apply repr_app in Hr'. destruct Hr' as (_ & R1 & R2 & _).
  simpl in R1, R2.
  split; [exact R1|]. split; [exact R2|].
  split; [exact Hh | exact Hr].
Qed.

(** X17: a total size that wraps to zero.  For the sixteen sizes whose
    aligned size is [SIZE_MAX - 31], header plus aligned size is [2^64]
    and wraps to 0, and no block of a well-formed heap fits.  A call of
    [mallocate] that returns has then made exactly one call of [sbrk]
    behind the query of its first statement, with argument 0, has left the
    break where it was, and has returned the break plus the header size,
    not [NULL]: [sbrk 0] cannot fail.  What it has written is a header
    with that size, marked in use, at the break, beyond the end of the
    arena, linked behind the last block.  In this model every cell of the
    memory can be written, and the call returns whenever the fuel exceeds
    the length of the chain; in a process the stores of the header succeed
    only where the bytes at the break are mapped. *)
Theorem mallocate_total_wraps st l size fuel :
  heap_inv st l -> SIZE_MAX - 46 <= size <= SIZE_MAX - 31 ->
  (length l < fuel)%nat ->
  Forall (fun c => fits (align size) c = false) l
  /\ wrap (ALIGNED_METADATA_SIZE + align size) = 0
  /\ (forall fuel0 p st0,
        mallocate fuel0 size st = Some (p, st0) ->
        p = brk st + ALIGNED_METADATA_SIZE /\ p <> NULL
        /\ sbrk_calls st0
           = 0 :: (if heap_start st =? NULL then [0] else []) ++ sbrk_calls st
        /\ brk st0 = brk st
        /\ get_size (mem st0) (brk st) = SIZE_MAX - 31
        /\ get_free (mem st0) (brk st) = 0)
  /\ exists st',
       mallocate fuel size st = Some (brk st + ALIGNED_METADATA_SIZE, st')
       /\ sbrk_calls st'
          = 0 :: (if heap_start st =? NULL then [0] else []) ++ sbrk_calls st
       /\ brk st' = brk st
       /\ get_size (mem st') (brk st) = SIZE_MAX - 31
       /\ get_free (mem st') (brk st) = 0
       /\ head st' = first_addr (l ++ [mkBlock (brk st) (SIZE_MAX - 31) false]) NULL
       /\ repr (mem st') (l ++ [mkBlock (brk st) (SIZE_MAX - 31) false]) NULL.
Proof.
  intros Hinv Hs Hfuel.
  destruct (total_wraps_raw st l size fuel Hinv Hs Hfuel) as (Hno & Hw & Hex).
  split; [exact Hno|]. split; [exact Hw|]. split; [|exact Hex].
  intros fuel0 p st0 Hm0.
  destruct (total_wraps_raw st l size (fuel0 + S (length l)) Hinv Hs ltac:(lia))
    as (_ & _ & st1 & Hm1 & Hc & Hb & Hsz & Hfr & _).
  rewrite (mallocate_mono fuel0 (fuel0 + S (length l)) _ _ _ ltac:(lia) Hm0) in Hm1.
  injection Hm1 as -> ->.
  split; [reflexivity|].
  split.
  { pose proof Hinv as [_ I2 _ I4 I5 _ _ _ _].
    pose proof (layout_le _ _ I4). unfold NULL. consts. lia. }
  auto.
Qed.

Lemma mallocate_total_wraps_witness :
  Forall (fun c => fits (align (SIZE_MAX - 40)) c = false) demo_chain
  /\ wrap (ALIGNED_METADATA_SIZE + align (SIZE_MAX - 40)) = 0
  /\ (forall fuel0 p st0,
        mallocate fuel0 (SIZE_MAX - 40) demo = Some (p, st0) ->
        p = brk demo + ALIGNED_METADATA_SIZE /\ p <> NULL
        /\ sbrk_calls st0 = 0 :: sbrk_calls demo
        /\ brk st0 = brk demo
        /\ get_size (mem st0) (brk demo) = SIZE_MAX - 31
        /\ get_free (mem st0) (brk demo) = 0)
  /\ exists st',
       mallocate 5 (SIZE_MAX - 40) demo = Some (brk demo + ALIGNED_METADATA_SIZE, st')
       /\ sbrk_calls st' = 0 :: sbrk_calls demo
       /\ brk st' = brk demo
       /\ get_size (mem st') (brk demo) = SIZE_MAX - 31
       /\ get_free (mem st') (brk demo) = 0
       /\ head st'
          = first_addr (demo_chain ++ [mkBlock (brk demo) (SIZE_MAX - 31) false]) NULL
       /\ repr (mem st')
            (demo_chain ++ [mkBlock (brk demo) (SIZE_MAX - 31) false]) NULL.
Proof.
  apply (mallocate_total_wraps demo demo_chain (SIZE_MAX - 40) 5).
  - exact demo_inv.
  - vm_compute. split; discriminate.
  - simpl. lia.
Defined.

(** ** Representable sizes *)

(** X18: no two neighbours free, for representable sizes.  From a
    well-formed heap in which no two chain neighbours are both free, every
    call of [mallocate] with a representable size and every call of
    [mfree] on a pointer it ignores or on the pointer of a block of the
    chain returns and leaves a well-formed heap with the same property. *)
Theorem no_adjacent_free_preserved st l fuel :
  heap_inv st l -> no_adjacent_free l -> (length l < fuel)%nat ->
  (forall size, representable size ->
     exists p st' l',
       mallocate fuel size st = Some (p, st')
       /\ heap_inv st' l' /\ no_adjacent_free l')
  /\ (forall ptr, ignored st ptr \/ (exists b, In b l /\ ptr = usable b) ->
        exists st' l',
          mfree fuel ptr st = Some st'
          /\ heap_inv st' l' /\ no_adjacent_free l').
Proof.
  intros Hinv Hn Hfuel. split.
  - intros size Hrep.
    destruct (mallocate_chain st l size fuel Hinv Hrep Hfuel)
      as (p & st' & l' & Hm & Hinv' & Hn' & _).
    exists p, st', l'. auto.
  - intros ptr [Hig|(b & Hin & ->)].
    + destruct (mfree_ignored st ptr fuel Hig) as (st' & Hm & Hsame).
      exists st', l. split_and!; auto. apply (same_chain_inv st); auto.
    + destruct (mfree_block st l b fuel Hinv Hin Hfuel)
        as (st' & l' & Hm & Hinv' & Hn' & _).
      exists st', l'. auto.
Qed.

Lemma no_adjacent_free_preserved_witness :
  (forall size, representable size ->
     exists p st' l',
       mallocate 5 size demo = Some (p, st')
       /\ heap_inv st' l' /\ no_adjacent_free l')
  /\ (forall ptr, ignored demo ptr \/ (exists b, In b demo_chain /\ ptr = usable b) ->
        exists st' l',
          mfree 5 ptr demo = Some st'
          /\ heap_inv st' l' /\ no_adjacent_free l').
Proof.
  apply (no_adjacent_free_preserved demo demo_chain 5).
  - exact demo_inv.
  - simpl. auto.
  - simpl. lia.
Defined.

(** X19: growth, for representable sizes.  In a well-formed heap none of
    whose blocks fits (the empty chain included), for a representable
    size, [mallocate] calls [sbrk] for exactly header size plus aligned
    size bytes (after the query [sbrk 0] on the very first call).  When
    [sbrk] succeeds the chain gets one more block, at its end, in use and
    of exactly the aligned size, and the result is the pointer of that
    block; when [sbrk] fails the result is [NULL] and memory, head and
    break are as before. *)
Theorem mallocate_grows st l size fuel :
  heap_inv st l -> representable size ->
  Forall (fun c => fits (align size) c = false) l ->
  (length l < fuel)%nat ->
  let total := ALIGNED_METADATA_SIZE + align size in
  exists p st',
    mallocate fuel size st = Some (p, st')
    /\ sbrk_calls st'
       = total :: (if heap_start st =? NULL then [0] else []) ++ sbrk_calls st
    /\ if fst (sbrk total st) =? SBRK_FAILED then
         p = NULL /\ mem st' = mem st /\ head st' = head st
         /\ brk st' = brk st /\ heap_inv st' l
       else
         p = usable (grown st size)
         /\ brk st' = brk st + total
         /\ heap_inv st' (l ++ [mkBlock (brk st) (align size) false]).
Proof.
  intros Hinv Hrep Hno Hfuel.
  exact (mallocate_grow_chain st l size fuel Hinv Hrep Hno Hfuel).
Qed.

Lemma mallocate_grows_witness :
  exists p st',
    mallocate 5 200 demo = Some (p, st')
    /\ sbrk_calls st' = [240]
    /\ p = 4480
    /\ brk st' = 4688
    /\ heap_inv st' (demo_chain ++ [mkBlock 4448 208 false]).
Proof.
  apply (mallocate_grows demo demo_chain 200 5).
  - exact demo_inv.
  - vm_compute. discriminate.
  - repeat constructor.
  - simpl. lia.
Defined.

(** The same request when the operating system has no room left: the
    result is [NULL] and the chain is as before. *)
Example growth_refused :
  let st := heap_of 4096 4448 demo_chain in
  exists st',
    mallocate 5 200 st = Some (NULL, st')
    /\ mem st' = mem st /\ head st' = head st /\ brk st' = brk st
    /\ sbrk_calls st' = [240].
Proof.
  eexists. split; [vm_compute; reflexivity|].
  repeat split.
Qed.
